(** * svg_to_pptx: the SVG parsing pipeline of [src/svg_to_pptx/parser.py]

    A shallow embedding of the parser (value normalisation, style
    resolution, the path mini-language interpreter, the shape extractors
    and the tree walk of [parse_svg]) together with the properties that
    the specification states about it.

    Modelling conventions.
    - Python [str] is [string]; only ASCII text is modelled.
    - Python [float] is [float] below: an exact rational, or an infinity,
      or NaN.  Rounding, underflow and overflow of binary64 are not
      modelled there: a statement that gives a number gives the exact
      one.  A statement that rests on the arithmetic of the code is made
      on [Binary64], the length normaliser with [float] and the product
      rounded to binary64.
    - [int] on a text has CPython's default limit of 4300 digits.
    - Reading and parsing the file, [ET.parse], belongs to the
      environment: [parse_svg_file] takes its outcome as a function.
    - A Python function that may raise returns [result A]; [try]/[except]
      is a match on the raised exception.
    - [dict] is stdpp's [gmap]; an ElementTree element is a rose tree. *)

From Stdlib Require Import QArith Qpower Qabs Qround Lqa Lia.
From Stdlib Require Import Ascii String DecimalString HexadecimalString.
From stdpp Require Import gmap strings list.


(* ===================================================================== *)
(** * Python builtins used by the parser *)
(* ===================================================================== *)

Module Py.

(** ** Exceptions *)

Inductive exn : Type :=
| ValueError (msg : string)
| IndexError (msg : string)
(** An exception of another class, such as those of reading a file. *)
| OtherError (cls : string) (msg : string).

(** [str(exc)] *)
Definition exn_str (e : exn) : string :=
  match e with ValueError m => m | IndexError m => m | OtherError _ m => m end.

Inductive result (A : Type) : Type :=
| Ok (a : A)
| Raise (e : exn).
Arguments Ok {A} a.
Arguments Raise {A} e.

#[global] Instance result_ret : MRet result := fun A a => Ok a.
#[global] Instance result_bind : MBind result := fun A B f m =>
  match m with Ok a => f a | Raise e => Raise e end.
#[global] Instance result_fmap : FMap result := fun A B f m =>
  match m with Ok a => Ok (f a) | Raise e => Raise e end.

Definition returns {A} (m : result A) : Prop := ∃ a, m = Ok a.

(** ** Characters *)

Definition ord (c : ascii) : N := N_of_ascii c.
Definition chr (n : N) : ascii := ascii_of_N n.

Definition in_range (lo hi : N) (c : ascii) : bool :=
  ((lo <=? ord c) && (ord c <=? hi))%N.

Definition isdigit (c : ascii) : bool := in_range 48 57 c.
Definition isupper (c : ascii) : bool := in_range 65 90 c.
Definition islower (c : ascii) : bool := in_range 97 122 c.
Definition isalpha (c : ascii) : bool := isupper c || islower c.
(** [str.isspace] on ASCII: TAB..CR, FS..US and the blank. *)
Definition isspace (c : ascii) : bool :=
  in_range 9 13 c || in_range 28 32 c.

Definition lower_char (c : ascii) : ascii :=
  if isupper c then chr (ord c + 32) else c.

Definition digit_value (c : ascii) : N := (ord c - 48)%N.

(** ** Strings *)

Fixpoint all (p : ascii → bool) (s : string) : bool :=
  match s with
  | EmptyString => true
  | String c r => p c && all p r
  end.

Fixpoint contains (c : ascii) (s : string) : bool :=
  match s with
  | EmptyString => false
  | String c' r => if Ascii.eqb c c' then true else contains c r
  end.

(** [s.lower()] *)
Fixpoint lower (s : string) : string :=
  match s with
  | EmptyString => EmptyString
  | String c r => String (lower_char c) (lower r)
  end.

(** The longest prefix of [s] whose characters satisfy [p], and the rest. *)
Fixpoint span (p : ascii → bool) (s : string) : string * string :=
  match s with
  | EmptyString => (EmptyString, EmptyString)
  | String c r =>
      if p c then let '(a, b) := span p r in (String c a, b)
      else (EmptyString, s)
  end.

(** [s] is empty or starts with a character that fails [p]. *)
Definition first_fails (p : ascii → bool) (s : string) : Prop :=
  match s with
  | EmptyString => True
  | String c _ => p c = false
  end.

Definition nonspace (c : ascii) : bool := negb (isspace c).

Fixpoint lstrip (s : string) : string :=
  match s with
  | EmptyString => EmptyString
  | String c r => if isspace c then lstrip r else s
  end.

Definition rstrip (s : string) : string :=
  String.rev (lstrip (String.rev s)).

(** [s.strip()] *)
Definition strip (s : string) : string := rstrip (lstrip s).

(** The whitespace that [float] and [int] skip around their text: C's
    [isspace], TAB..CR and the blank, without FS..US. *)
Definition isspace_c (c : ascii) : bool :=
  in_range 9 13 c || in_range 32 32 c.

Fixpoint lstrip_c (s : string) : string :=
  match s with
  | EmptyString => EmptyString
  | String c r => if isspace_c c then lstrip_c r else s
  end.

Definition strip_c (s : string) : string :=
  String.rev (lstrip_c (String.rev (lstrip_c s))).

(** [s.startswith(p)] *)
Definition startswith (p s : string) : bool := String.prefix p s.

(** [bool(s)] for a string: non-empty. *)
Definition truthy (s : string) : bool :=
  match s with EmptyString => false | _ => true end.

(** [s.split(sep)] for a one-character separator. *)
Fixpoint split_go (sep : ascii) (cur : string) (s : string) : list string :=
  match s with
  | EmptyString => [String.rev cur]
  | String c r =>
      if Ascii.eqb c sep then String.rev cur :: split_go sep EmptyString r
      else split_go sep (String c cur) r
  end.
Definition split (sep : ascii) (s : string) : list string :=
  split_go sep EmptyString s.

(** [s.split(sep, 1)]: at most one split, at the first separator. *)
Fixpoint split1_go (sep : ascii) (cur : string) (s : string) : list string :=
  match s with
  | EmptyString => [String.rev cur]
  | String c r =>
      if Ascii.eqb c sep then [String.rev cur; r]
      else split1_go sep (String c cur) r
  end.
Definition split1 (sep : ascii) (s : string) : list string :=
  split1_go sep EmptyString s.

(** [sep.join(parts)] *)
Fixpoint join (sep : string) (parts : list string) : string :=
  match parts with
  | [] => EmptyString
  | [p] => p
  | p :: rest => p +:+ sep +:+ join sep rest
  end.

(** [a, b = l]: unpacking into two names. *)
Definition unpack2 {A} (l : list A) : result (A * A) :=
  match l with
  | [a; b] => Ok (a, b)
  | [] | [_] => Raise (ValueError "not enough values to unpack (expected 2)")
  | _ => Raise (ValueError "too many values to unpack (expected 2)")
  end.

(** [range(0, n, 2)] *)
Definition range_step2 (n : nat) : list nat :=
  (λ k, 2 * k) <$> seq 0 (Nat.div2 (n + 1)).

(** [l[i]], which raises IndexError out of range. *)
Definition index {A} (l : list A) (i : nat) : result A :=
  match l !! i with
  | Some x => Ok x
  | None => Raise (IndexError "list index out of range")
  end.

(** ** [repr] of a string, used in the messages of builtin errors *)

Definition hex2 (n : N) : string :=
  let h := NilZero.string_of_uint (N.to_hex_uint n) in
  if (n <? 16)%N then String "0" h else h.

Definition repr_char (quote c : ascii) : string :=
  if Ascii.eqb c quote || Ascii.eqb c "\" then String "\" (String c EmptyString)
  else if Ascii.eqb c "009" then "\t"
  else if Ascii.eqb c "010" then "\n"
  else if Ascii.eqb c "013" then "\r"
  else if (ord c <? 32)%N || (ord c =? 127)%N then "\x" +:+ hex2 (ord c)
  else String c EmptyString.

Fixpoint repr_body (quote : ascii) (s : string) : string :=
  match s with
  | EmptyString => EmptyString
  | String c r => repr_char quote c +:+ repr_body quote r
  end.

Definition repr (s : string) : string :=
  let quote : ascii :=
    if contains "'" s && negb (contains "034" s) then "034"%char else "'"%char in
  String quote (repr_body quote s) +:+ String quote EmptyString.

(** ** [float(s)] and [int(s)] on strings *)

Fixpoint pow10 (k : nat) : positive :=
  match k with O => 1 | S k => 10 * pow10 k end%positive.

(** Value of a string of decimal digits, most significant first. *)
Fixpoint digits_value_from (acc : N) (s : string) : N :=
  match s with
  | EmptyString => acc
  | String c r => digits_value_from (acc * 10 + digit_value c) r
  end.
Definition digits_value (s : string) : N := digits_value_from 0 s.

(** The number written [ip.fp] in decimal. *)
Definition decimal (ip fp : string) : Q :=
  Z.of_N (digits_value (ip +:+ fp)) # pow10 (String.length fp).

(** [(["_"] digit)*] read from the front of [s], which follows a digit;
    the underscores are dropped. *)
Fixpoint digitpart_tail (s : string) : string * string :=
  match s with
  | EmptyString => (EmptyString, EmptyString)
  | String c r =>
      if isdigit c then
        let '(d, rest) := digitpart_tail r in (String c d, rest)
      else if Ascii.eqb c "_" then
        match r with
        | String c' r' =>
            if isdigit c' then
              let '(d, rest) := digitpart_tail r' in (String c' d, rest)
            else (EmptyString, s)
        | EmptyString => (EmptyString, s)
        end
      else (EmptyString, s)
  end.

(** [digitpart ::= digit (["_"] digit)*] read from the front of [s]; an
    empty result means that [s] does not start with a digit. *)
Definition digitpart (s : string) : string * string :=
  match s with
  | EmptyString => (EmptyString, EmptyString)
  | String c r =>
      if isdigit c then
        let '(d, rest) := digitpart_tail r in (String c d, rest)
      else (EmptyString, s)
  end.

(** [number ::= [digitpart] "." digitpart | digitpart ["."]] *)
Definition number (s : string) : option (Q * string) :=
  match digitpart s with
  | (String _ _ as ip, String "." r) =>
      match digitpart r with
      | (String _ _ as fp, r') => Some (decimal ip fp, r')
      | (EmptyString, _) => Some (decimal ip EmptyString, r)
      end
  | (String _ _ as ip, r) => Some (decimal ip EmptyString, r)
  | (EmptyString, _) =>
      match s with
      | String "." r =>
          match digitpart r with
          | (String _ _ as fp, r') => Some (decimal EmptyString fp, r')
          | (EmptyString, _) => None
          end
      | _ => None
      end
  end.

(** An optional sign. *)
Definition sign (plus : bool) (s : string) : bool * string :=
  match s with
  | String "-" r => (true, r)
  | String "+" r => if plus then (false, r) else (false, s)
  | _ => (false, s)
  end.

(** [exponent ::= ("e" | "E") [sign] digitpart], up to the end of [s]. *)
Definition exponent (s : string) : option Z :=
  match s with
  | String c r =>
      if Ascii.eqb c "e" || Ascii.eqb c "E" then
        let '(neg, r1) := sign true r in
        match digitpart r1 with
        | (String _ _ as ds, EmptyString) =>
            let e := Z.of_N (digits_value ds) in
            Some (if neg then - e else e)%Z
        | _ => None
        end
      else None
  | EmptyString => None
  end.

(** [floatnumber ::= number [exponent]], the whole of [s]. *)
Definition floatnumber (s : string) : option Q :=
  match number s with
  | Some (q, EmptyString) => Some q
  | Some (q, r) =>
      match exponent r with
      | Some e => Some (q * Qpower 10 e)%Q
      | None => None
      end
  | None => None
  end.

(** ** Floats *)

Inductive float : Type :=
| Finite (q : Q)
| Infinity (negative : bool)
| NaN.

Definition fzero : float := Finite 0.
Definition fone : float := Finite 1.

Definition sign_of (q : Q) : comparison := (Qnum q ?= 0)%Z.

Definition fadd (a b : float) : float :=
  match a, b with
  | NaN, _ | _, NaN => NaN
  | Finite x, Finite y => Finite (x + y)
  | Infinity s, Finite _ | Finite _, Infinity s => Infinity s
  | Infinity s, Infinity t => if Bool.eqb s t then Infinity s else NaN
  end.

Definition fmul (a b : float) : float :=
  match a, b with
  | NaN, _ | _, NaN => NaN
  | Finite x, Finite y => Finite (x * y)
  | Infinity s, Finite y | Finite y, Infinity s =>
      match sign_of y with
      | Eq => NaN
      | Gt => Infinity s
      | Lt => Infinity (negb s)
      end
  | Infinity s, Infinity t => Infinity (xorb s t)
  end.

(** Python's [==] on floats: NaN equals nothing. *)
Definition feq (a b : float) : Prop :=
  match a, b with
  | Finite x, Finite y => (x == y)%Q
  | Infinity s, Infinity t => s = t
  | _, _ => False
  end.

(** [float(s)]: surrounding whitespace ([isspace_c]) is ignored; the text is
    [[sign] (floatnumber | "inf" | "infinity" | "nan")], the words in any
    letter case.  Anything else raises ValueError. *)
Definition float_of_str (s : string) : result float :=
  let '(neg, body) := sign true (strip_c s) in
  let word := lower body in
  if String.eqb word "inf" || String.eqb word "infinity" then Ok (Infinity neg)
  else if String.eqb word "nan" then Ok NaN
  else
    match floatnumber body with
    | Some q => Ok (Finite (if neg then - q else q)%Q)
    | None => Raise (ValueError ("could not convert string to float: " +:+ repr s))
    end.

(** [str(n)] for a natural number. *)
Definition str_of_nat (n : nat) : string :=
  DecimalString.NilZero.string_of_uint (Nat.to_uint n).

(** [sys.get_int_max_str_digits()], CPython's default limit on the number
    of digits of a decimal text that [int] converts. *)
Definition int_max_str_digits : nat := 4300.

(** The message of [int] on a text of [digits] digits, more than the limit. *)
Definition int_limit_message (digits : nat) : string :=
  "Exceeds the limit (4300 digits) for integer string conversion: value has "
  +:+ str_of_nat digits
  +:+ " digits; use sys.set_int_max_str_digits() to increase the limit".

(** [int(s)] in base 10: [[sign] digitpart] between optional whitespace
    ([isspace_c]).  An underscore that no digit follows is an invalid
    literal; otherwise more than [int_max_str_digits] digits raise
    ValueError, before what follows the digits is looked at.  The message
    of an invalid literal shows 200 characters of [repr(s)]. *)
Definition int_of_str (s : string) : result Z :=
  let '(neg, body) := sign true (strip_c s) in
  let invalid :=
    Raise (ValueError ("invalid literal for int() with base 10: "
                       +:+ String.substring 0 200 (repr s))) in
  match digitpart body with
  | (String _ _ as ds, rest) =>
      if startswith "_" rest then invalid
      else if (int_max_str_digits <? String.length ds)%nat then
        Raise (ValueError (int_limit_message (String.length ds)))
      else
        match rest with
        | EmptyString =>
            let n := Z.of_N (digits_value ds) in
            Ok (if neg then - n else n)%Z
        | _ => invalid
        end
  | _ => invalid
  end.

(** [f"{n:02x}"]: lowercase hexadecimal, zero-padded to two characters,
    the sign counting as one of them. *)
Definition format_02x (n : Z) : string :=
  let h := NilZero.string_of_uint (N.to_hex_uint (Z.abs_N n)) in
  match n with
  | Zneg _ => String "-" h
  | _ => if (String.length h <? 2)%nat then String "0" h else h
  end.

End Py.

(* ===================================================================== *)
(** * The regular expressions of the parser *)
(* ===================================================================== *)

(** Each pattern of [parser.py] is a function giving the text it matches
    at the start of a string.  All of them are built from greedy runs of
    a character class; where the pattern has to backtrack, or cannot
    succeed by backtracking, is noted at the function. *)

Module Re.
Import Py.

(** [re.finditer] / [re.findall] for a pattern that matches no empty
    text: the matches are found left to right and do not overlap; after a
    match the scan resumes behind it ([skip] counts the characters of the
    current match still to be passed over). *)
Fixpoint finditer_from (match_at : string → option string)
    (skip : nat) (s : string) : list string :=
  match s with
  | EmptyString => []
  | String _ r =>
      match skip with
      | S k => finditer_from match_at k r
      | O =>
          match match_at s with
          | Some m => m :: finditer_from match_at (String.length m - 1) r
          | None => finditer_from match_at 0 r
          end
      end
  end.

Definition findall (match_at : string → option string) (s : string)
  : list string := finditer_from match_at 0 s.

(** [\d+] *)
Definition digits_at (s : string) : option string :=
  match span isdigit s with
  | (String _ _ as ds, _) => Some ds
  | _ => None
  end.

(** [\d+(?:\.\d+)?] at the start of [s]: the text and what follows.  The
    run of digits is the longest one; the fraction is taken when a dot
    and a digit follow. *)
Definition unsigned_at (s : string) : option (string * string) :=
  match span isdigit s with
  | (String _ _ as ip, String "." r as rest) =>
      match span isdigit r with
      | (String _ _ as fp, rest') => Some (ip +:+ String "." fp, rest')
      | _ => Some (ip, rest)
      end
  | (String _ _ as ip, rest) => Some (ip, rest)
  | _ => None
  end.

(** [-?\d+(?:\.\d+)?] at the start of [s]. *)
Definition signed_at (s : string) : option (string * string) :=
  match s with
  | String "-" r =>
      match unsigned_at r with
      | Some (v, rest) => Some (String "-" v, rest)
      | None => None
      end
  | _ => unsigned_at s
  end.

(** The class [[a-z%]] under [re.IGNORECASE]. *)
Definition unit_char (c : ascii) : bool := isalpha c || Ascii.eqb c "%".

(** [_LENGTH_RE.fullmatch(s)]: the groups [value] and [unit].  A shorter
    number cannot lead to a match, since the character after it would be
    a digit or a dot, which [unit] does not accept. *)
Definition LENGTH_RE_fullmatch (s : string) : option (string * string) :=
  match signed_at s with
  | Some (value, unit) => if all unit_char unit then Some (value, unit) else None
  | None => None
  end.

(** [-?\d+(?:\.\d+)?,-?\d+(?:\.\d+)?] at the start of [s]: the comma has
    to follow the longest first number, for the same reason. *)
Definition pair_at (s : string) : option string :=
  match signed_at s with
  | Some (a, String "," r) =>
      match signed_at r with
      | Some (b, _) => Some (a +:+ String "," b)
      | None => None
      end
  | _ => None
  end.

(** [-?\d+(?:\.\d+)?] *)
Definition number_at (s : string) : option string :=
  match signed_at s with
  | Some (v, _) => Some v
  | None => None
  end.

(** [\d*\.?\d+] at the start of [s]: digits, a dot and digits; or, giving
    back the dot and one digit, the digits alone; or a dot and digits. *)
Definition bare_number_at (s : string) : option string :=
  match span isdigit s with
  | (ip, String "." r) =>
      match span isdigit r with
      | (String _ _ as fp, _) => Some (ip +:+ String "." fp)
      | _ => match ip with EmptyString => None | _ => Some ip end
      end
  | (String _ _ as ip, _) => Some ip
  | _ => None
  end.

Definition is_path_command (c : ascii) : bool :=
  contains c "MmLlHhVvZz".

(** [([MmLlHhVvZz])|(-?\d*\.?\d+)] at the start of [s]. *)
Definition path_token_at (s : string) : option string :=
  match s with
  | EmptyString => None
  | String c r =>
      if is_path_command c then Some (String c EmptyString)
      else if Ascii.eqb c "-" then
        match bare_number_at r with
        | Some v => Some (String "-" v)
        | None => None
        end
      else bare_number_at s
  end.

(** [re.fullmatch(r"[A-Za-z]", token)] as a truth value. *)
Definition is_letter (token : string) : bool :=
  match token with
  | String c EmptyString => isalpha c
  | _ => false
  end.

End Re.

(* ===================================================================== *)
(** * [models.py] and the ElementTree elements *)
(* ===================================================================== *)

Module Models.
Import Py.

Definition Color : Type := option string.

Inductive ShapeType : Type :=
| RECT | CIRCLE | ELLIPSE | LINE | POLYLINE | POLYGON | PATH | TEXT.

(** The string value of the enumeration member. *)
Definition ShapeType_value (t : ShapeType) : string :=
  match t with
  | RECT => "rect" | CIRCLE => "circle" | ELLIPSE => "ellipse"
  | LINE => "line" | POLYLINE => "polyline" | POLYGON => "polygon"
  | PATH => "path" | TEXT => "text"
  end.

Record Style : Type := mkStyle {
  fill_color : Color;
  stroke_color : Color;
  stroke_width : float;
  opacity : float
}.

(** [Style()] *)
Definition Style_default : Style :=
  {| fill_color := None; stroke_color := None;
     stroke_width := Finite 1; opacity := Finite 1 |}.

(** [TextStyle] extends [Style]. *)
Record TextStyle : Type := mkTextStyle {
  text_base :> Style;
  font_family : option string;
  font_size : option float
}.

(** [TextStyle()] *)
Definition TextStyle_default : TextStyle :=
  {| text_base := Style_default; font_family := None; font_size := None |}.

Definition point : Type := float * float.

Record PathSegment : Type := mkPathSegment {
  points : list point;
  closed : bool
}.

Inductive Shape : Type :=
| Rect (shape_type : ShapeType) (style : Style) (x y width height rx ry : float)
| Circle (shape_type : ShapeType) (style : Style) (cx cy r : float)
| Ellipse (shape_type : ShapeType) (style : Style) (cx cy rx ry : float)
| Line (shape_type : ShapeType) (style : Style) (x1 y1 x2 y2 : float)
| Polyline (shape_type : ShapeType) (style : Style)
    (pts : list point) (is_closed : bool)
| Path (shape_type : ShapeType) (style : Style) (segments : list PathSegment)
| Text (shape_type : ShapeType) (style : TextStyle) (text : string) (x y : float).

Definition shape_type (s : Shape) : ShapeType :=
  match s with
  | Rect t _ _ _ _ _ _ _ | Circle t _ _ _ _ | Ellipse t _ _ _ _ _
  | Line t _ _ _ _ _ | Polyline t _ _ _ | Path t _ _ | Text t _ _ _ _ => t
  end.

Definition style (s : Shape) : Style :=
  match s with
  | Rect _ st _ _ _ _ _ _ | Circle _ st _ _ _ | Ellipse _ st _ _ _ _
  | Line _ st _ _ _ _ | Polyline _ st _ _ | Path _ st _ => st
  | Text _ st _ _ _ => st
  end.

Record Document : Type := mkDocument {
  width : option float;
  height : option float;
  shapes : list Shape
}.

End Models.

(** An [xml.etree.ElementTree.Element]: tag, attributes, the text before
    the first child, the text after the end tag, and the children. *)
Module ET.

#[warnings="-register-all"]
Inductive Element : Type := mkElement {
  tag : string;
  attrib : gmap string string;
  text : option string;
  tail : option string;
  children : list Element
}.

(** [element.get(key, default)] *)
Definition get (element : Element) (key : string) (default : option string)
  : option string :=
  match attrib element !! key with
  | Some v => Some v
  | None => default
  end.

(** [element.iter()]: the element, then the elements below it, in
    document order. *)
Fixpoint iter (element : Element) : list Element :=
  element :: flat_map iter (children element).

Definition text_if (t : option string) : list string :=
  match t with
  | Some s => if Py.truthy s then [s] else []
  | None => []
  end.

(** [element.itertext()]: the inner text, in document order. *)
Fixpoint itertext (element : Element) : list string :=
  text_if (text element)
    ++ flat_map (λ e, itertext e ++ text_if (tail e)) (children element).

End ET.

(* ===================================================================== *)
(** * [parser.py] *)
(* ===================================================================== *)

Module Parser.
Import Py Re Models ET.

Definition _COLOR_NAMES : gmap string string :=
  list_to_map
    [ ("black", "#000000"); ("white", "#ffffff"); ("red", "#ff0000");
      ("green", "#008000"); ("blue", "#0000ff"); ("yellow", "#ffff00");
      ("cyan", "#00ffff"); ("magenta", "#ff00ff"); ("none", "none") ].

(** ** Value normalisation *)

(** The chain of [if unit ...: return ...] at the end of [_parse_float]. *)
Definition convert (unit : string) (number : float) : float :=
  if bool_decide (unit ∈ [EmptyString; "px"]) then number
  else if String.eqb unit "pt" then fmul number (Finite 1.3333)
  else if String.eqb unit "cm" then fmul number (Finite 37.7953)
  else if String.eqb unit "mm" then fmul number (Finite 3.77953)
  else if String.eqb unit "in" then fmul number (Finite 96)
  else if String.eqb unit "%" then number
  else number.

Definition _parse_float (value : option string) (default : float)
  : result float :=
  match value with
  | None => Ok default
  | Some value =>
      let value := strip value in
      if negb (truthy value) then Ok default
      else
        match LENGTH_RE_fullmatch value with
        | None =>
            match float_of_str value with
            | Ok f => Ok f
            | Raise (ValueError _) => Ok default
            | Raise e => Raise e
            end
        | Some (v, u) =>
            number ← float_of_str v;
            let unit := lower u in
            Ok (convert unit number)
        end
  end.

Definition _parse_color (value : option string) : result (option string) :=
  match value with
  | None => Ok None
  | Some value =>
      let value := strip value in
      if negb (truthy value) then Ok None
      else
        let normalized := default value (_COLOR_NAMES !! lower value) in
        if String.eqb (lower normalized) "none" then Ok None
        else if startswith "#" normalized
                && (String.length normalized =? 7)%nat
        then Ok (Some (lower normalized))
        else if startswith "rgb" normalized then
          let values := findall digits_at normalized in
          if (length values =? 3)%nat then
            comps ← mapM (λ v, n ← int_of_str v; Ok (format_02x n)) values;
            Ok (Some (String "#" (join EmptyString comps)))
          else Ok (Some normalized)
        else Ok (Some normalized)
  end.

(** ** Style resolution *)

Definition merge_declaration (style : gmap string string) (decl : string)
  : result (gmap string string) :=
  if contains ":" decl then
    '(key, value) ← unpack2 (split1 ":" decl);
    Ok (<[strip key := strip value]> style)
  else Ok style.

Fixpoint merge_declarations (style : gmap string string)
    (declarations : list string) : result (gmap string string) :=
  match declarations with
  | [] => Ok style
  | decl :: rest =>
      style' ← merge_declaration style decl;
      merge_declarations style' rest
  end.

Definition _merge_style (element : Element) : result (gmap string string) :=
  match attrib element !! "style" with
  | Some v => merge_declarations ∅ (split ";" v)
  | None => Ok ∅
  end.

Definition _extract_style (element : Element) (base_style : option Style)
  : result Style :=
  inline ← _merge_style element;
  let fill := get element "fill" (inline !! "fill") in
  let stroke := get element "stroke" (inline !! "stroke") in
  let stroke_width_ := get element "stroke-width" (inline !! "stroke-width") in
  let opacity_ := get element "opacity" (inline !! "opacity") in
  fc ← _parse_color fill;
  sc ← _parse_color stroke;
  sw ← _parse_float stroke_width_
         (match base_style with Some b => stroke_width b | None => Finite 1 end);
  op ← match opacity_ with
       | Some o => float_of_str o
       | None => Ok (match base_style with Some b => opacity b | None => Finite 1 end)
       end;
  Ok {| fill_color := fc; stroke_color := sc; stroke_width := sw; opacity := op |}.

Definition _extract_text_style (element : Element) : result TextStyle :=
  inline ← _merge_style element;
  let font_family_ := get element "font-family" (inline !! "font-family") in
  let font_size_ := get element "font-size" (inline !! "font-size") in
  base_style ← _extract_style element (Some (text_base TextStyle_default));
  fs ← match font_size_ with
       | Some v => if truthy v then Some <$> _parse_float (Some v) fzero else Ok None
       | None => Ok None
       end;
  Ok {| text_base :=
          {| fill_color := fill_color base_style;
             stroke_color := stroke_color base_style;
             stroke_width := stroke_width base_style;
             opacity := opacity base_style |};
        font_family := font_family_;
        font_size := fs |}.

(** ** Point lists *)

Definition parse_pair (pair : string) : result point :=
  '(x_str, y_str) ← unpack2 (split "," pair);
  x ← _parse_float (Some x_str) fzero;
  y ← _parse_float (Some y_str) fzero;
  Ok (x, y).

(** The second loop of [_parse_points]: the numbers taken two by two;
    an IndexError ends the loop. *)
Fixpoint points_of_numbers (numbers : list string) (indices : list nat)
    (points : list point) : result (list point) :=
  match indices with
  | [] => Ok points
  | i :: rest =>
      match a ← index numbers i;
            x ← _parse_float (Some a) fzero;
            b ← index numbers (i + 1);
            y ← _parse_float (Some b) fzero;
            Ok (x, y)
      with
      | Ok p => points_of_numbers numbers rest (points ++ [p])
      | Raise (IndexError _) => Ok points
      | Raise e => Raise e
      end
  end.

Definition _parse_points (points_str : string) : result (list point) :=
  points ← mapM parse_pair (findall pair_at (strip points_str));
  if bool_decide (points = []) then
    let numbers := findall number_at points_str in
    points_of_numbers numbers (range_step2 (length numbers)) points
  else Ok points.

(** ** The path interpreter *)

Definition _path_tokens (path_data : string) : list string :=
  findall path_token_at path_data.

(** The variables of the loop of [_parse_path], the index [i] apart: the
    loop below runs over the tokens from index [i] on. *)
Record interp : Type := mkInterp {
  command : option string;
  cursor : point;
  start_point : option point;
  segments : list PathSegment
}.

Definition interp_init : interp :=
  {| command := None; cursor := (fzero, fzero);
     start_point := None; segments := [] |}.

(** [l[-1] = f(l[-1])] on a non-empty list. *)
Definition update_last {A} (f : A → A) (l : list A) : list A :=
  alter f (pred (length l)) l.

Definition one_of (c : string) (l : list string) : bool := bool_decide (c ∈ l).

(** The end of the loop body, reached with the new [point]. *)
Definition draw (c : string) (point : point) (st : interp) : interp :=
  if one_of c ["M"; "m"] then
    {| command := Some (if String.eqb c "M" then "L" else "l");
       cursor := point;
       start_point := Some point;
       segments := segments st ++ [ {| points := [point]; closed := false |} ] |}
  else
    {| command := Some c;
       cursor := point;
       start_point := start_point st;
       segments :=
         match segments st with
         | [] => [ {| points := [cursor st; point]; closed := false |} ]
         | _ => update_last
                  (λ seg, {| points := points seg ++ [point];
                             closed := closed seg |})
                  (segments st)
         end |}.

(** [command = token] *)
Definition set_command (token : string) (st : interp) : interp :=
  {| command := Some token; cursor := cursor st;
     start_point := start_point st; segments := segments st |}.

(** The branch of [Z] and [z]. *)
Definition close_path (st : interp) : interp :=
  {| command := None;
     cursor := default (cursor st) (start_point st);
     start_point := start_point st;
     segments :=
       match segments st, start_point st with
       | _ :: _, Some _ =>
           update_last (λ seg, {| points := points seg; closed := true |})
             (segments st)
       | _, _ => segments st
       end |}.

(** One turn of the loop at [token = tokens[i]], with [next = tokens[i+1]]
    when [i + 1 < len(tokens)]: the new variables, and whether [i] goes
    up by two rather than by one. *)
Definition path_step (token : string) (next : option string) (st : interp)
  : result (interp * bool) :=
  if is_letter token then Ok (set_command token st, false)
  else
    match command st with
    | None => Raise (ValueError "Path data missing command")
    | Some c =>
        if one_of c ["M"; "L"] then
          x ← _parse_float (Some token) fzero;
          y ← match next with
              | Some t => _parse_float (Some t) fzero
              | None => Ok fzero
              end;
          Ok (draw c (x, y) st, true)
        else if one_of c ["m"; "l"] then
          dx ← _parse_float (Some token) fzero;
          let x := fadd (cursor st).1 dx in
          y ← match next with
              | Some t => dy ← _parse_float (Some t) fzero;
                          Ok (fadd (cursor st).2 dy)
              | None => Ok (cursor st).2
              end;
          Ok (draw c (x, y) st, true)
        else if one_of c ["H"] then
          x ← _parse_float (Some token) fzero;
          Ok (draw c (x, (cursor st).2) st, false)
        else if one_of c ["h"] then
          dx ← _parse_float (Some token) fzero;
          Ok (draw c (fadd (cursor st).1 dx, (cursor st).2) st, false)
        else if one_of c ["V"] then
          y ← _parse_float (Some token) fzero;
          Ok (draw c ((cursor st).1, y) st, false)
        else if one_of c ["v"] then
          dy ← _parse_float (Some token) fzero;
          Ok (draw c ((cursor st).1, fadd (cursor st).2 dy) st, false)
        else if one_of c ["Z"; "z"] then Ok (close_path st, false)
        else Ok (st, false)
    end.

(** [while i < len(tokens)], on [tokens[i:]]. *)
Fixpoint _parse_path_loop (tokens : list string) (st : interp)
  : result (list PathSegment) :=
  match tokens with
  | [] => Ok (segments st)
  | token :: rest =>
      match path_step token (head rest) st with
      | Raise e => Raise e
      | Ok (st', false) => _parse_path_loop rest st'
      | Ok (st', true) =>
          match rest with
          | [] => Ok (segments st')
          | _ :: rest' => _parse_path_loop rest' st'
          end
      end
  end.

Definition _parse_path (path_data : string) : result (list PathSegment) :=
  _parse_path_loop (_path_tokens path_data) interp_init.

(** The first [n] turns of the loop: the tokens still to be read and the
    variables at that point. *)
Fixpoint path_run (n : nat) (tokens : list string) (st : interp)
  : result (list string * interp) :=
  match n, tokens with
  | O, _ | _, [] => Ok (tokens, st)
  | S n', token :: rest =>
      match path_step token (head rest) st with
      | Raise e => Raise e
      | Ok (st', two) => path_run n' (if two then List.tl rest else rest) st'
      end
  end.

(** The last point of the last segment. *)
Definition last_point (segs : list PathSegment) : option point :=
  last segs ≫= λ seg, last (points seg).

(** ** Shape extractors *)

Definition attr_float (element : Element) (key : string) : result float :=
  _parse_float (get element key None) fzero.

Definition _parse_rect (element : Element) : result Shape :=
  st ← _extract_style element None;
  x ← attr_float element "x";
  y ← attr_float element "y";
  w ← attr_float element "width";
  h ← attr_float element "height";
  rx ← attr_float element "rx";
  ry ← attr_float element "ry";
  Ok (Rect RECT st x y w h rx ry).

Definition _parse_circle (element : Element) : result Shape :=
  st ← _extract_style element None;
  cx ← attr_float element "cx";
  cy ← attr_float element "cy";
  r ← attr_float element "r";
  Ok (Circle CIRCLE st cx cy r).

Definition _parse_ellipse (element : Element) : result Shape :=
  st ← _extract_style element None;
  cx ← attr_float element "cx";
  cy ← attr_float element "cy";
  rx ← attr_float element "rx";
  ry ← attr_float element "ry";
  Ok (Ellipse ELLIPSE st cx cy rx ry).

Definition _parse_line (element : Element) : result Shape :=
  st ← _extract_style element None;
  x1 ← attr_float element "x1";
  y1 ← attr_float element "y1";
  x2 ← attr_float element "x2";
  y2 ← attr_float element "y2";
  Ok (Line LINE st x1 y1 x2 y2).

Definition _parse_polyline (element : Element) (closed : bool) : result Shape :=
  st ← _extract_style element None;
  pts ← _parse_points (default EmptyString (get element "points" None));
  Ok (Polyline (if closed then POLYGON else POLYLINE) st pts closed).

Definition _parse_path_element (element : Element) : result Shape :=
  st ← _extract_style element None;
  let data := default EmptyString (get element "d" None) in
  segs ← _parse_path data;
  Ok (Path PATH st segs).

Definition _parse_text (element : Element) : result Shape :=
  text_style ← _extract_text_style element;
  let text_content :=
    join " " (strip <$> filter (λ t, truthy (strip t) = true) (itertext element)) in
  x ← attr_float element "x";
  y ← attr_float element "y";
  Ok (Text TEXT text_style text_content x y).

Definition _SHAPE_PARSERS : gmap string (Element → result Shape) :=
  list_to_map
    [ ("rect", _parse_rect); ("circle", _parse_circle);
      ("ellipse", _parse_ellipse); ("line", _parse_line);
      ("polyline", λ el, _parse_polyline el false);
      ("polygon", λ el, _parse_polyline el true);
      ("path", _parse_path_element); ("text", _parse_text) ].

(** ** The document *)

(** [element.tag.split("}")[-1]] *)
Definition local_tag (element : Element) : string :=
  List.last (split "}" (tag element)) EmptyString.

Definition wrap_error (tag : string) (exc : exn) : exn :=
  ValueError ("Unable to parse element '" +:+ tag +:+ "': " +:+ exn_str exc).

(** The loop of [parse_svg] over [root.iter()]. *)
Fixpoint parse_elements (elements : list Element) (shapes : list Shape)
  : result (list Shape) :=
  match elements with
  | [] => Ok shapes
  | element :: rest =>
      let tag := local_tag element in
      match _SHAPE_PARSERS !! tag with
      | Some parser =>
          match parser element with
          | Ok shape => parse_elements rest (shapes ++ [shape])
          | Raise exc => Raise (wrap_error tag exc)
          end
      | None => parse_elements rest shapes
      end
  end.

Definition canvas_length (root : Element) (key : string)
  : result (option float) :=
  match get root key None with
  | Some v => if truthy v then Some <$> _parse_float (Some v) fzero else Ok None
  | None => Ok None
  end.

(** [parse_svg], from the root element that [ET.parse] has read. *)
Definition parse_svg (root : Element) : result Document :=
  w ← canvas_length root "width";
  h ← canvas_length root "height";
  shapes ← parse_elements (iter root) [];
  Ok {| width := w; height := h; shapes := shapes |}.

(** [parse_svg] from its first line.  Reading and parsing the file,
    [ET.parse(svg_path).getroot()], is the environment's part, [parse]:
    it gives the root element or raises (FileNotFoundError, ParseError,
    ...), and what it raises is not caught. *)
Definition parse_svg_file (parse : string → result Element) (svg_file : string)
  : result Document :=
  root ← parse svg_file;
  parse_svg root.

End Parser.

(* ===================================================================== *)
(** * The arithmetic of the code: binary64 *)
(* ===================================================================== *)

(** Where a property rests on the arithmetic of floats, the length
    normaliser is taken with the arithmetic that the code has: [float] of
    a text is the binary64 number nearest to the number that the text
    denotes, and a product is the binary64 number nearest to the product.
    A binary64 number is a [Finite] rational that [round64] gives. *)

Module Rounding.
Import Py.

(** [2^z] *)
Definition pow2 (z : Z) : Q := Qpower 2 z.

(** The integer [e] with [2^e <= q < 2^(e+1)], for a positive [q]. *)
Definition ilog2 (q : Q) : Z :=
  let k := (Z.log2 (Qnum q) - Z.log2 (Z.pos (Qden q)))%Z in
  if Qle_bool (pow2 k) q then k else (k - 1)%Z.

(** The nearest integer, the even one of two that are equally near. *)
Definition round_half_even (x : Q) : Z :=
  let f := Qfloor x in
  match (x - inject_Z f ?= 1 # 2)%Q with
  | Lt => f
  | Gt => (f + 1)%Z
  | Eq => if Z.even f then f else (f + 1)%Z
  end.

(** The binary64 number nearest to [q], ties to even: 53 bits of
    precision, exponents from -1074, and an infinity from [2^1024] on. *)
Definition round64 (q : Q) : float :=
  if Qeq_bool q 0 then Finite 0
  else
    let e := ilog2 (Qabs q) in
    let s := Z.max (e - 52) (-1074) in
    let m := round_half_even (Qabs q / pow2 s) in
    let r := (inject_Z m * pow2 s)%Q in
    if Qle_bool (pow2 1024) r then Infinity (Z.ltb (Qnum q) 0)
    else Finite (if Z.ltb (Qnum q) 0 then - r else r)%Q.

(** [e] is the exponent of the positive number [q]. *)
Definition exponent_of (q : Q) (e : Z) : Prop :=
  (pow2 e <= q)%Q ∧ (q < pow2 (e + 1))%Q.



End Rounding.

Module Binary64.
Import Py Re Rounding.

(** [float(s)] in binary64: the number nearest to the one the text denotes. *)
Definition float_of_str (s : string) : result float :=
  match Py.float_of_str s with
  | Ok (Finite q) => Ok (round64 q)
  | r => r
  end.

(** [a * b] in binary64, for two binary64 numbers. *)
Definition fmul (a b : float) : float :=
  match Py.fmul a b with
  | Finite q => round64 q
  | r => r
  end.

(** The chain of [if unit ...: return ...] at the end of [_parse_float];
    a float literal of the source is the binary64 number nearest to it. *)
Definition convert (unit : string) (number : float) : float :=
  if bool_decide (unit ∈ [EmptyString; "px"]) then number
  else if String.eqb unit "pt" then fmul number (round64 1.3333)
  else if String.eqb unit "cm" then fmul number (round64 37.7953)
  else if String.eqb unit "mm" then fmul number (round64 3.77953)
  else if String.eqb unit "in" then fmul number (round64 96)
  else if String.eqb unit "%" then number
  else number.

Definition _parse_float (value : option string) (default : float)
  : result float :=
  match value with
  | None => Ok default
  | Some value =>
      let value := strip value in
      if negb (truthy value) then Ok default
      else
        match LENGTH_RE_fullmatch value with
        | None =>
            match float_of_str value with
            | Ok f => Ok f
            | Raise (ValueError _) => Ok default
            | Raise e => Raise e
            end
        | Some (v, u) =>
            number ← float_of_str v;
            let unit := lower u in
            Ok (convert unit number)
        end
  end.

End Binary64.

(* ===================================================================== *)
(** * Decimal numerals *)
(* ===================================================================== *)

(** The texts that [-?\d+(?:\.\d+)?] matches, taken apart: a sign, the
    digits before the point and, when there is a point, those after it. *)
Module Numeral.
Import Py.

Record numeral : Type := mkNumeral {
  negative : bool;
  int_digits : string;
  frac_digits : option string
}.

Definition digit_string (s : string) : Prop :=
  all isdigit s = true ∧ s ≠ EmptyString.

Definition wf (n : numeral) : Prop :=
  digit_string (int_digits n) ∧
  match frac_digits n with
  | Some fp => digit_string fp
  | None => True
  end.

Definition unsigned_text (n : numeral) : string :=
  int_digits n +:+
    match frac_digits n with
    | Some fp => String "." fp
    | None => EmptyString
    end.

(** What may follow a numeral without being read as part of it. *)
Definition after_number (rest : string) : Prop :=
  first_fails (λ c, isdigit c || Ascii.eqb c ".") rest.

(** The numeral as written. *)
Definition render (n : numeral) : string :=
  if negative n then String "-" (unsigned_text n) else unsigned_text n.

(** The number it denotes. *)
Definition value (n : numeral) : Q :=
  let q := decimal (int_digits n) (default EmptyString (frac_digits n)) in
  if negative n then (- q)%Q else q.







End Numeral.

(* ===================================================================== *)
(** * Predicates used in the statements *)
(* ===================================================================== *)

Module Properties.
Import Py Re Models ET Parser.

(** The ways one turn of the loop of [_parse_path] changes the variables. *)
Inductive step_kind (token : string) (st : interp) : interp → Prop :=
| step_letter : is_letter token = true → step_kind token st (set_command token st)
| step_draw c pt : command st = Some c → step_kind token st (draw c pt st)
| step_close c : command st = Some c → step_kind token st (close_path st)
| step_skip : step_kind token st st.

(** Every segment has a point. *)
Definition nonempty_segments (st : interp) : Prop :=
  Forall (λ seg, points seg ≠ []) (segments st).

(** As long as there is no segment, the cursor is at the origin and no
    subpath start is remembered. *)
Definition fresh_cursor (st : interp) : Prop :=
  segments st = [] → cursor st = (fzero, fzero) ∧ start_point st = None.

(** The point that the line command [c] reaches from the origin, for the
    number [x] read at the turn and the number [y] read from the token
    after it, when there is one. *)
Definition line_from_origin (c : string) (x : float) (y : option float) : point :=
  if String.eqb c "L" then (x, default fzero y)
  else if String.eqb c "l" then
    (fadd fzero x, match y with Some dy => fadd fzero dy | None => fzero end)
  else if String.eqb c "H" then (x, fzero)
  else if String.eqb c "h" then (fadd fzero x, fzero)
  else if String.eqb c "V" then (fzero, x)
  else (fzero, fadd fzero x).

(** The first segment starts with the points [a] and [b]. *)
Definition first_segment_starts (a b : point) (st : interp) : Prop :=
  ∃ seg more rest, segments st = seg :: more ∧ points seg = a :: b :: rest.

Definition differs (sep : ascii) (c : ascii) : bool := negb (Ascii.eqb c sep).

(** The conversion of [opacity] by [float] fails in the style resolver. *)
Definition opacity_failure (element : Element) (exc : exn) : Prop :=
  ∃ inline o,
    _merge_style element = Ok inline ∧
    get element "opacity" (inline !! "opacity") = Some o ∧
    float_of_str o = Raise exc.

(** A run of digits longer than [int] accepts. *)
Definition oversized (digits : string) : bool :=
  (int_max_str_digits <? String.length digits)%nat.

(** The colour text is, once stripped, an [rgb] form with exactly three
    runs of digits, one of them longer than [int] accepts. *)
Definition oversized_rgb (value : string) : bool :=
  let runs := findall digits_at (strip value) in
  startswith "rgb" (strip value) && (length runs =? 3)%nat && existsb oversized runs.

(** The conversion of the fill or of the stroke colour fails in the style
    resolver. *)
Definition colour_failure (element : Element) (exc : exn) : Prop :=
  ∃ inline key,
    _merge_style element = Ok inline ∧
    key ∈ ["fill"; "stroke"] ∧
    _parse_color (get element key (inline !! key)) = Raise exc.

(** The path interpreter fails on the [d] attribute of a [path] element. *)
Definition path_failure (element : Element) (exc : exn) : Prop :=
  local_tag element = "path" ∧
  _parse_path (default EmptyString (get element "d" None)) = Raise exc ∧
  exc = ValueError "Path data missing command".

(** The element is one that [parse_svg] turns into a shape. *)
Definition recognised (element : Element) : Prop :=
  is_Some (_SHAPE_PARSERS !! local_tag element).

#[global] Instance recognised_dec element : Decision (recognised element).
Proof. unfold recognised. apply _. Defined.

(** The shape is what the extractor of the element's tag returns. *)
Definition parsed_by (element : Element) (shape : Shape) : Prop :=
  ∃ parser,
    _SHAPE_PARSERS !! local_tag element = Some parser ∧
    parser element = Ok shape.

End Properties.

(* ===================================================================== *)
(** * Example documents *)
(* ===================================================================== *)

Module Examples.
Import ET.

Definition leaf (tag : string) (attrib : gmap string string) : Element :=
  {| tag := tag; attrib := attrib; text := None; tail := None; children := [] |}.

(** [<rect fill="#111111" style="fill:#222222"/>] *)
Definition precedence_example : Element :=
  leaf "rect" {[ "fill" := "#111111"; "style" := "fill:#222222" ]}.

(** [<svg><rect/><g><circle/></g><path d="M0,0 L5,5"/></svg>], in the
    SVG namespace. *)
Definition order_example : Element :=
  {| tag := "{http://www.w3.org/2000/svg}svg"; attrib := ∅;
     text := None; tail := None;
     children :=
       [ leaf "{http://www.w3.org/2000/svg}rect" ∅;
         {| tag := "{http://www.w3.org/2000/svg}g"; attrib := ∅;
            text := None; tail := None;
            children := [ leaf "{http://www.w3.org/2000/svg}circle" ∅ ] |};
         leaf "{http://www.w3.org/2000/svg}path" {[ "d" := "M0,0 L5,5" ]} ] |}.

(** [<svg><rect opacity="50%"/></svg>] *)
Definition opacity_example : Element :=
  {| tag := "svg"; attrib := ∅; text := None; tail := None;
     children := [ leaf "rect" {[ "opacity" := "50%" ]} ] |}.

(** [0.0...0d], with 323 zeros after the point. *)
Definition tiny_text (d : string) : string :=
  "0." +:+ string_of_list_ascii (replicate 323 "0"%char) +:+ d.

(** A run of 4301 digits, one more than [int] accepts. *)
Definition digits_4301 : string :=
  string_of_list_ascii (replicate 4301 "1"%char).

(** [<svg><rect fill="rgb(1...1,0,0)"/></svg>] *)
Definition oversized_example : Element :=
  {| tag := "svg"; attrib := ∅; text := None; tail := None;
     children := [ leaf "rect" {[ "fill" := "rgb(" +:+ digits_4301 +:+ ",0,0)" ]} ] |}.

End Examples.

(* ===================================================================== *)
(** * Further vocabulary: texts of points, shapes of paths and of documents *)
(* ===================================================================== *)

Module Chars.
Import Py.

(** A character that is not a decimal digit. *)
Definition nondigit (c : ascii) : bool := negb (isdigit c).

End Chars.

Module PointText.
Import Py Models Numeral.

(** A coordinate pair as it is written in a [points] attribute or in path
    data, and the point it denotes. *)
Definition pair_text (p : numeral * numeral) : string :=
  render p.1 +:+ "," +:+ render p.2.

Definition pair_value (p : numeral * numeral) : point :=
  (Finite (value p.1), Finite (value p.2)).

Definition wf_pair (p : numeral * numeral) : Prop := wf p.1 ∧ wf p.2.

End PointText.

Module PathText.
Import Py Numeral.

(** The two tokens of a coordinate pair. *)
Definition pair_tokens (p : numeral * numeral) : list string :=
  [render p.1; render p.2].

End PathText.

Module PathShape.
Import Py Re Models Parser.

(** Some [Z] or [z] token is directly followed by a number. *)
Fixpoint z_then_number (tokens : list string) : bool :=
  match tokens with
  | z :: (t :: _) as rest =>
      (one_of z ["Z"; "z"] && negb (is_letter t)) || z_then_number rest
  | _ => false
  end.

(** The first token is a number. *)
Definition starts_with_number (tokens : list string) : bool :=
  match tokens with
  | t :: _ => negb (is_letter t)
  | [] => false
  end.

(** No segment of the state is closed. *)
Definition closed_free (st : interp) : Prop :=
  Forall (λ seg, closed seg = false) (segments st).

End PathShape.

Module ShapeProps.
Import Py Models ET Parser Properties.

(** The discriminator is the one of the shape's own variant; for a point
    list it also tells whether the list is closed. *)
Definition well_tagged (s : Shape) : Prop :=
  match s with
  | Rect t _ _ _ _ _ _ _ => t = RECT
  | Circle t _ _ _ _ => t = CIRCLE
  | Ellipse t _ _ _ _ _ => t = ELLIPSE
  | Line t _ _ _ _ _ => t = LINE
  | Polyline t _ _ c => t = (if c then POLYGON else POLYLINE)
  | Path t _ _ => t = PATH
  | Text t _ _ _ _ => t = TEXT
  end.

(** Some cause of failure applies to the element. *)
Definition fails (element : Element) : Prop :=
  ∃ exc,
    opacity_failure element exc ∨ path_failure element exc
    ∨ colour_failure element exc.

End ShapeProps.

(* ===================================================================== *)
(** * Strings *)
(* ===================================================================== *)

Module StringFacts.
Import Py Properties.

Lemma sapp_nil_l (s : string) : EmptyString +:+ s = s.
Proof. reflexivity. Qed.

Lemma sapp_cons c (a b : string) : String c a +:+ b = String c (a +:+ b).
Proof. reflexivity. Qed.

Lemma sapp_nil_r (s : string) : s +:+ EmptyString = s.
Proof. induction s as [|c s IH]; [done|]. by rewrite sapp_cons, IH. Qed.

Lemma sapp_assoc (a b c : string) : (a +:+ b) +:+ c = a +:+ (b +:+ c).
Proof. induction a as [|x a IH]; [done|]. by rewrite !sapp_cons, IH. Qed.

Lemma all_app p (a b : string) : all p (a +:+ b) = all p a && all p b.
Proof.
  induction a as [|x a IH]; [done|].
  rewrite sapp_cons. simpl. rewrite IH. by destruct (p x).
Qed.

Lemma all_impl (p q : ascii → bool) s :
  (∀ c, p c = true → q c = true) → all p s = true → all q s = true.
Proof.
  intros Hpq. induction s as [|c s IH]; [done|]. simpl.
  intros [Hc Hs]%andb_prop. rewrite (Hpq _ Hc). by apply IH.
Qed.

Lemma rev_app_rev_app s a b :
  String.rev_app (String.rev_app s a) b = String.rev_app a (s +:+ b).
Proof.
  revert a b. induction s as [|c s IH]; intros a b; [done|].
  simpl. by rewrite IH.
Qed.

Lemma rev_involutive s : String.rev (String.rev s) = s.
Proof. unfold String.rev. rewrite rev_app_rev_app. simpl. apply sapp_nil_r. Qed.

Lemma all_rev_app p s a :
  all p (String.rev_app s a) = all p s && all p a.
Proof.
  revert a. induction s as [|c s IH]; intros a; [done|].
  simpl. rewrite IH. simpl. destruct (p c), (all p s); done.
Qed.

Lemma all_rev p s : all p (String.rev s) = all p s.
Proof. unfold String.rev. rewrite all_rev_app. simpl. apply andb_true_r. Qed.

Lemma lstrip_id s : first_fails isspace s → lstrip s = s.
Proof. destruct s as [|c s]; [done|]. simpl. by intros ->. Qed.

Lemma all_first_fails p s : all (λ c, negb (p c)) s = true → first_fails p s.
Proof. destruct s as [|c s]; [done|]. simpl. by intros [?%negb_true_iff _]%andb_prop. Qed.

Lemma strip_id s : all nonspace s = true → strip s = s.
Proof.
  intros H. unfold strip, rstrip.
  rewrite (lstrip_id s) by by apply all_first_fails.
  rewrite lstrip_id; [apply rev_involutive|].
  apply all_first_fails. by rewrite all_rev.
Qed.

Lemma isspace_c_isspace c : isspace_c c = true → isspace c = true.
Proof. destruct c as [[] [] [] [] [] [] [] []]; vm_compute; done. Qed.

Lemma lstrip_c_id s : first_fails isspace s → lstrip_c s = s.
Proof.
  destruct s as [|c s]; [done|]. simpl. intros Hc.
  destruct (isspace_c c) eqn:E; [|done].
  apply isspace_c_isspace in E. congruence.
Qed.

Lemma strip_c_id s : all nonspace s = true → strip_c s = s.
Proof.
  intros H. unfold strip_c.
  rewrite (lstrip_c_id s) by by apply all_first_fails.
  rewrite lstrip_c_id; [apply rev_involutive|].
  apply all_first_fails. by rewrite all_rev.
Qed.

Lemma span_spec p s a b :
  span p s = (a, b) → s = a +:+ b ∧ all p a = true ∧ first_fails p b.
Proof.
  revert a b. induction s as [|c s IH]; intros a b; simpl.
  - by intros [= <- <-].
  - destruct (p c) eqn:Hc.
    + destruct (span p s) as [a' b'] eqn:Hs. intros [= <- <-].
      destruct (IH _ _ eq_refl) as (-> & Ha & Hb).
      rewrite sapp_cons. simpl. by rewrite Hc, Ha.
    + intros [= <- <-]. simpl. done.
Qed.

Lemma span_app p a b :
  all p a = true → first_fails p b → span p (a +:+ b) = (a, b).
Proof.
  intros Ha Hb. induction a as [|c a IH].
  - rewrite sapp_nil_l. destruct b as [|x b]; [done|]. simpl in *. by rewrite Hb.
  - simpl in Ha. apply andb_prop in Ha as [Hc Ha].
    rewrite sapp_cons. simpl. by rewrite Hc, IH.
Qed.

Lemma slength_app (a b : string) :
  String.length (a +:+ b) = String.length a + String.length b.
Proof. induction a as [|c a IH]; [done|]. rewrite sapp_cons. simpl. by rewrite IH. Qed.

(** Case analysis on a digit. *)
Lemma digit_cases c :
  isdigit c = true →
  c ∈ ["0"; "1"; "2"; "3"; "4"; "5"; "6"; "7"; "8"; "9"]%char.
Proof.
  destruct c as [[] [] [] [] [] [] [] []]; intros H; try discriminate H;
    set_solver.
Qed.

End StringFacts.

(* ===================================================================== *)
(** * What the number patterns match *)
(* ===================================================================== *)

Import Py Re Numeral Properties StringFacts.

Module NumeralFacts.

Ltac by_chars c :=
  destruct c as [[] [] [] [] [] [] [] []]; vm_compute; try done; intuition congruence.

Lemma digit_nonspace c : isdigit c = true → nonspace c = true.
Proof. by_chars c. Qed.

Lemma unit_char_nonspace c : Re.unit_char c = true → nonspace c = true.
Proof. by_chars c. Qed.

Lemma unit_char_not_digit c : Re.unit_char c = true → isdigit c || Ascii.eqb c "." = false.
Proof. by_chars c. Qed.

Lemma digit_not_sign c r plus : isdigit c = true → sign plus (String c r) = (false, String c r).
Proof. destruct plus; by_chars c. Qed.

Lemma digit_string_cons s : digit_string s → ∃ c r, s = String c r ∧ isdigit c = true ∧ all isdigit r = true.
Proof.
  intros [Hall Hne]. destruct s as [|c r]; [done|]. simpl in Hall.
  apply andb_prop in Hall as [? ?]. eauto.
Qed.

(** *** What [unsigned_at] and [signed_at] match *)

Lemma after_number_digit rest : after_number rest → first_fails isdigit rest.
Proof. destruct rest as [|c r]; [done|]. simpl. by intros [? _]%orb_false_elim. Qed.

Lemma unsigned_at_text n rest :
  wf n → after_number rest →
  unsigned_at (unsigned_text n +:+ rest) = Some (unsigned_text n, rest).
Proof.
  intros [Hip Hfp] Hrest. unfold unsigned_at, unsigned_text.
  destruct (digit_string_cons _ Hip) as (c & r & Eip & Hc & Hr).
  rewrite sapp_assoc.
  rewrite (span_app isdigit (int_digits n)); [|apply Hip|].
  - rewrite Eip. destruct (frac_digits n) as [fp|].
    + destruct (digit_string_cons _ Hfp) as (c' & r' & -> & Hc' & Hr').
      rewrite sapp_cons.
      rewrite (span_app isdigit (String c' r')).
      * by rewrite sapp_cons.
      * simpl. by rewrite Hc', Hr'.
      * by apply after_number_digit.
    + rewrite sapp_nil_l, sapp_nil_r. destruct rest as [|x rest]; [done|].
      simpl in Hrest. apply orb_false_elim in Hrest as [Hx Hdot].
      destruct x as [[] [] [] [] [] [] [] []]; try done.
  - destruct (frac_digits n); [done|]. rewrite sapp_nil_l. by apply after_number_digit.
Qed.

Lemma signed_at_render n rest :
  wf n → after_number rest →
  signed_at (render n +:+ rest) = Some (render n, rest).
Proof.
  intros Hn Hrest. unfold signed_at, render. destruct (negative n).
  - rewrite sapp_cons. by rewrite unsigned_at_text.
  - pose proof (unsigned_at_text n rest Hn Hrest) as H.
    destruct Hn as [Hip _]. destruct (digit_string_cons _ Hip) as (c & r & Eip & Hc & Hr).
    assert (∃ t, unsigned_text n +:+ rest = String c t) as [t E].
    { unfold unsigned_text. rewrite Eip, !sapp_cons. eauto. }
    rewrite E in *. clear E.
    destruct c as [[] [] [] [] [] [] [] []]; vm_compute in Hc; try done.
Qed.

Lemma unsigned_at_inv s v rest :
  unsigned_at s = Some (v, rest) →
  ∃ ip fr, wf (mkNumeral false ip fr) ∧ v = unsigned_text (mkNumeral false ip fr)
           ∧ s = v +:+ rest.
Proof.
  unfold unsigned_at. destruct (span isdigit s) as [ip r] eqn:Hs.
  apply span_spec in Hs as (-> & Hip & Hr).
  destruct ip as [|c ip]; [by destruct r as [|[[] [] [] [] [] [] [] []] ?]|].
  assert (∀ fr, (match fr with Some fp => digit_string fp | None => True end) →
     wf (mkNumeral false (String c ip) fr)) as Hwf.
  { intros fr Hfr. split; [|done]. split; done. }
  assert (Some (String c ip, r) = Some (v, rest) →
    ∃ ip0 fr, wf (mkNumeral false ip0 fr) ∧ v = unsigned_text (mkNumeral false ip0 fr)
           ∧ String c ip +:+ r = v +:+ rest) as Hplain.
  { intros [= <- <-]. exists (String c ip), None. split; [by apply Hwf|].
    unfold unsigned_text; simpl. by rewrite sapp_nil_r. }
  destruct r as [|x r]; [done|].
  destruct (Ascii.eqb_spec x ".") as [->|Hx].
  - destruct (span isdigit r) as [fp r'] eqn:Hf.
    apply span_spec in Hf as (-> & Hfp & Hr').
    destruct fp as [|c' fp]; [done|].
    intros [= <- <-]. exists (String c ip), (Some (String c' fp)).
    split; [apply Hwf; by split|].
    unfold unsigned_text; simpl. split; [done|].
    by rewrite !sapp_cons, sapp_assoc, !sapp_cons.
  - intros H. apply Hplain. revert H.
    destruct x as [[] [] [] [] [] [] [] []]; try done.
Qed.

Lemma signed_at_inv s v rest :
  signed_at s = Some (v, rest) →
  ∃ n, wf n ∧ v = render n ∧ s = v +:+ rest.
Proof.
  unfold signed_at.
  assert (unsigned_at s = Some (v, rest) → ∃ n, wf n ∧ v = render n ∧ s = v +:+ rest) as Hu.
  { intros (ip & fr & Hwf & -> & ->)%unsigned_at_inv. by exists (mkNumeral false ip fr). }
  destruct s as [|c s]; [done|].
  destruct (Ascii.eqb_spec c "-") as [->|Hc].
  - destruct (unsigned_at s) as [[v' rest']|] eqn:Hs; [|done].
    intros [= <- <-]. apply unsigned_at_inv in Hs as (ip & fr & Hwf & -> & ->).
    exists (mkNumeral true ip fr). by rewrite sapp_cons.
  - intros H. apply Hu. revert H.
    destruct c as [[] [] [] [] [] [] [] []]; try done.
Qed.

End NumeralFacts.

(* ===================================================================== *)
(** * [float] of a numeral *)
(* ===================================================================== *)

Import Py Re Numeral Properties StringFacts NumeralFacts.

Module FloatFacts.

Lemma digitpart_tail_app ds rest :
  all isdigit ds = true →
  first_fails (λ c, isdigit c || Ascii.eqb c "_") rest →
  digitpart_tail (ds +:+ rest) = (ds, rest).
Proof.
  intros Hds Hrest. induction ds as [|c ds IH].
  - rewrite sapp_nil_l. destruct rest as [|x rest]; [done|].
    simpl in *. apply orb_false_elim in Hrest as [-> ->]. done.
  - simpl in Hds. apply andb_prop in Hds as [Hc Hds].
    rewrite sapp_cons. simpl. by rewrite Hc, IH.
Qed.

Lemma digitpart_app ds rest :
  digit_string ds →
  first_fails (λ c, isdigit c || Ascii.eqb c "_") rest →
  digitpart (ds +:+ rest) = (ds, rest).
Proof.
  intros (c & r & -> & Hc & Hr)%digit_string_cons Hrest.
  rewrite sapp_cons. unfold digitpart. by rewrite Hc, digitpart_tail_app.
Qed.

Lemma digitpart_all ds : digit_string ds → digitpart ds = (ds, EmptyString).
Proof.
  intros H. rewrite <- (sapp_nil_r ds) at 1. by apply digitpart_app.
Qed.

Lemma number_text n :
  wf n →
  number (unsigned_text n)
  = Some (decimal (int_digits n) (default EmptyString (frac_digits n)), EmptyString).
Proof.
  intros [Hip Hfp]. unfold number, unsigned_text.
  destruct (frac_digits n) as [fp|]; simpl.
  - rewrite digitpart_app by done.
    destruct (digit_string_cons _ Hip) as (c & r & -> & _ & _).
    rewrite digitpart_all by done.
    by destruct (digit_string_cons _ Hfp) as (c' & r' & -> & _ & _).
  - rewrite sapp_nil_r, digitpart_all by done.
    by destruct (digit_string_cons _ Hip) as (c & r & -> & _ & _).
Qed.

Lemma all_nonspace_render n : wf n → all nonspace (render n) = true.
Proof.
  intros [[Hip _] Hfp]. unfold render, unsigned_text.
  assert (∀ s, all isdigit s = true → all nonspace s = true) as Hd.
  { intros s. apply all_impl, digit_nonspace. }
  assert (all nonspace (int_digits n +:+
    match frac_digits n with Some fp => String "." fp | None => EmptyString end) = true) as H.
  { rewrite all_app, Hd by done. destruct (frac_digits n) as [fp|]; [|done].
    destruct Hfp as [Hfp _]. simpl. by rewrite (Hd fp). }
  destruct (negative n); [|done]. simpl. by rewrite H.
Qed.

Lemma sign_render n :
  wf n → sign true (render n) = (negative n, unsigned_text n).
Proof.
  intros [Hip _]. unfold render. destruct (negative n); [done|].
  destruct (digit_string_cons _ Hip) as (c & r & E & Hc & _).
  unfold unsigned_text. rewrite E, sapp_cons. by apply digit_not_sign.
Qed.

Lemma digit_first_not_word c r w :
  isdigit c = true → first_fails isdigit w → w ≠ EmptyString →
  String.eqb (lower (String c r)) w = false.
Proof.
  intros Hc Hw Hne. destruct w as [|x w]; [done|]. simpl in *.
  assert (Ascii.eqb (lower_char c) x = false) as ->; [|done].
  apply Ascii.eqb_neq. intros <-.
  revert Hw. clear -Hc. destruct c as [[] [] [] [] [] [] [] []]; vm_compute in Hc; done.
Qed.

Theorem float_of_str_render n :
  wf n → float_of_str (render n) = Ok (Finite (value n)).
Proof.
  intros Hn. unfold float_of_str.
  rewrite strip_c_id by by apply all_nonspace_render.
  rewrite sign_render by done.
  assert (∃ c r, unsigned_text n = String c r ∧ isdigit c = true) as (c & r & E & Hc).
  { destruct Hn as [Hip _]. destruct (digit_string_cons _ Hip) as (c & r & E & Hc & _).
    unfold unsigned_text. rewrite E, sapp_cons. eauto. }
  rewrite E, !digit_first_not_word by done. rewrite <- E.
  unfold floatnumber. rewrite number_text by done. done.
Qed.

End FloatFacts.

(* ===================================================================== *)
(** * [_parse_float] *)
(* ===================================================================== *)

Import Py Re Models ET Parser Numeral Properties Examples StringFacts NumeralFacts FloatFacts.

Module ParseFloatFacts.

Lemma float_of_str_raises s e :
  float_of_str s = Raise e → ∃ msg, e = ValueError msg.
Proof.
  unfold float_of_str. destruct (sign true (strip_c s)) as [neg body].
  repeat case_match; intros [= <-]; eauto.
Qed.

Lemma LENGTH_RE_fullmatch_inv s v u :
  LENGTH_RE_fullmatch s = Some (v, u) →
  ∃ n, wf n ∧ v = render n ∧ s = v +:+ u ∧ all unit_char u = true.
Proof.
  unfold LENGTH_RE_fullmatch.
  destruct (signed_at s) as [[v' u']|] eqn:Hs; [|done].
  destruct (all unit_char u') eqn:Hu; [|done]. intros [= <- <-].
  apply signed_at_inv in Hs as (n & ? & ? & ?). eauto.
Qed.

Lemma unit_after_number u : all unit_char u = true → after_number u.
Proof.
  destruct u as [|c u]; [done|]. simpl.
  intros [Hc _]%andb_prop. by apply unit_char_not_digit.
Qed.

Lemma LENGTH_RE_fullmatch_render n u :
  wf n → all unit_char u = true →
  LENGTH_RE_fullmatch (render n +:+ u) = Some (render n, u).
Proof.
  intros Hn Hu. unfold LENGTH_RE_fullmatch.
  rewrite signed_at_render by auto using unit_after_number. by rewrite Hu.
Qed.

(** [_parse_float] never raises. *)
Lemma parse_float_returns value default_ : returns (_parse_float value default_).
Proof.
  unfold _parse_float, returns. destruct value as [value|]; [|eauto].
  destruct (negb (truthy (strip value))); [eauto|].
  destruct (LENGTH_RE_fullmatch (strip value)) as [[v u]|] eqn:Hm.
  - apply LENGTH_RE_fullmatch_inv in Hm as (n & Hn & -> & _ & _).
    rewrite float_of_str_render by done. simpl. eauto.
  - destruct (float_of_str (strip value)) as [f|e] eqn:Hf; [eauto|].
    apply float_of_str_raises in Hf as [msg ->]. eauto.
Qed.

Lemma render_nonempty n : wf n → truthy (render n) = true.
Proof.
  intros [Hip _]. destruct (digit_string_cons _ Hip) as (c & r & E & _).
  unfold render, unsigned_text. rewrite E. by destruct (negative n).
Qed.

Lemma truthy_app a b : truthy a = true → truthy (a +:+ b) = true.
Proof. by destruct a. Qed.

(** A numeral followed by a unit suffix. *)
Lemma parse_float_numeral n u default_ :
  wf n → all unit_char u = true →
  _parse_float (Some (render n +:+ u)) default_
  = Ok (convert (lower u) (Finite (value n))).
Proof.
  intros Hn Hu. unfold _parse_float.
  rewrite strip_id.
  - rewrite truthy_app by by apply render_nonempty. simpl.
    rewrite LENGTH_RE_fullmatch_render by done.
    by rewrite float_of_str_render.
  - rewrite all_app, all_nonspace_render by done. simpl.
    revert Hu. apply all_impl, unit_char_nonspace.
Qed.

End ParseFloatFacts.

(* ===================================================================== *)
(** * Rounding to binary64 *)
(* ===================================================================== *)

Import Py Re Models ET Parser Numeral Properties Examples StringFacts NumeralFacts FloatFacts ParseFloatFacts Rounding.

Module RoundFacts.

Local Open Scope Q_scope.














Lemma exponent_comp q q' e : q == q' → exponent_of q e → exponent_of q' e.
Proof. intros E [H1 H2]. split; by rewrite <- E. Qed.


(** *** Rounding to an integer *)






(** *** Numbers in the normal range *)








Lemma Qnum_neg q : (Qnum q <? 0)%Z = true ↔ q < 0.
Proof. rewrite Z.ltb_lt. unfold Qlt. simpl. lia. Qed.

Lemma sign_comp q q' : q == q' → (Qnum q <? 0)%Z = (Qnum q' <? 0)%Z.
Proof.
  intros E. apply eq_true_iff_eq. rewrite !Qnum_neg. by rewrite E.
Qed.







End RoundFacts.

Import Py Re Models ET Parser Numeral Properties Examples StringFacts NumeralFacts FloatFacts ParseFloatFacts Rounding RoundFacts.

Module Binary64Facts.

Local Open Scope Q_scope.









End Binary64Facts.

(* ===================================================================== *)
(** * Lengths: claims C4 and C9 *)
(* ===================================================================== *)

Import Py Re Models ET Parser Numeral Properties Examples StringFacts NumeralFacts FloatFacts ParseFloatFacts Rounding RoundFacts Binary64Facts.

Module LengthClaims.

Lemma alpha_unit_char c : isalpha c = true → unit_char c = true.
Proof. unfold unit_char. by intros ->. Qed.

Lemma convert_unknown unit number :
  unit ∉ ["px"; "pt"; "cm"; "mm"; "in"] → convert unit number = number.
Proof.
  intros H. unfold convert.
  destruct (bool_decide _); [done|].
  destruct (String.eqb_spec unit "pt") as [->|_]; [set_solver|].
  destruct (String.eqb_spec unit "cm") as [->|_]; [set_solver|].
  destruct (String.eqb_spec unit "mm") as [->|_]; [set_solver|].
  destruct (String.eqb_spec unit "in") as [->|_]; [set_solver|].
  by destruct (String.eqb unit "%").
Qed.

(** Claim C9.  A numeral followed by a non-empty alphabetic suffix that is
    none of px, pt, cm, mm, in (in any letter case), such as ["5em"], does
    not give the default: [_parse_float] returns the value of the numeral
    unchanged, the same result as with the suffix px. *)
Theorem parse_length_unknown_unit n u default_ :
  wf n → u ≠ EmptyString → all isalpha u = true →
  lower u ∉ ["px"; "pt"; "cm"; "mm"; "in"] →
  _parse_float (Some (render n +:+ u)) default_ = Ok (Finite (value n))
  ∧ _parse_float (Some (render n +:+ u)) default_
    = _parse_float (Some (render n +:+ "px")) default_.
Proof.
  intros Hn _ Hu Hunknown.
  rewrite !parse_float_numeral by (done || revert Hu; apply all_impl, alpha_unit_char).
  by rewrite convert_unknown.
Qed.

(** The case of ["5em"], with a default of 7. *)
Lemma parse_length_unknown_unit_witness :
  _parse_float (Some "5em") (Finite 7) = Ok (Finite 5)
  ∧ _parse_float (Some "5em") (Finite 7) = _parse_float (Some "5px") (Finite 7).
Proof.
  apply (parse_length_unknown_unit (mkNumeral false "5" None) "em" (Finite 7)).
  - repeat split; (reflexivity || discriminate).
  - discriminate.
  - reflexivity.
  - vm_compute. intros H.
    repeat (apply elem_of_cons in H as [H|H]; [discriminate H|]).
    by apply elem_of_nil in H.
Defined.


(** *** Literals with an exponent *)








(** *** The same texts in binary64 *)






(** Below these magnitudes the equality fails: ["0.0...03"] and
    ["0.0...06"], with 323 zeros after the point, denote a number and its
    double, and both are read as the smallest positive binary64 number,
    [2^-1074]. *)
Lemma denormals_not_linear :
  Binary64._parse_float (Some (tiny_text "3")) fzero = Ok (Finite (pow2 (-1074)))
  ∧ Binary64._parse_float (Some (tiny_text "6")) fzero = Ok (Finite (pow2 (-1074)))
  ∧ ¬ feq (Finite (pow2 (-1074)))
        (Binary64.fmul (Finite 2) (Finite (pow2 (-1074)))).
Proof.
  split; [vm_compute; reflexivity|]. split; [vm_compute; reflexivity|].
  vm_compute. discriminate.
Qed.


End LengthClaims.

(* ===================================================================== *)
(** * The loop of the path interpreter *)
(* ===================================================================== *)

Import Py Re Models ET Parser Numeral Properties Examples StringFacts NumeralFacts FloatFacts ParseFloatFacts.

Module PathFacts.

(** Induction over a token list read one or two tokens at a time. *)
Lemma tokens_ind (P : list string → Prop) :
  P [] →
  (∀ token rest, P rest → P (List.tl rest) → P (token :: rest)) →
  ∀ tokens, P tokens.
Proof.
  intros Hnil Hcons tokens.
  enough (P tokens ∧ P (List.tl tokens)) by tauto.
  induction tokens as [|token rest [IH1 IH2]]; simpl; auto.
Qed.

Lemma loop_unfold token rest st :
  _parse_path_loop (token :: rest) st
  = match path_step token (head rest) st with
    | Raise e => Raise e
    | Ok (st', two) => _parse_path_loop (if two then List.tl rest else rest) st'
    end.
Proof.
  simpl. destruct (path_step token (head rest) st) as [[st' [|]]|e]; [|done..].
  by destruct rest.
Qed.

Ltac bind_float :=
  match goal with
  | |- context [_parse_float ?v ?d] =>
      let x := fresh "x" in let Hx := fresh "Hx" in
      destruct (parse_float_returns v d) as [x Hx]; rewrite Hx; cbn [mbind result_bind]
  end.

Lemma path_step_kind token next st st' two :
  path_step token next st = Ok (st', two) → step_kind token st st'.
Proof.
  unfold path_step. destruct (is_letter token) eqn:Hl.
  { intros [= <- <-]. by constructor. }
  destruct (command st) as [c|] eqn:Hc; [|done].
  repeat (case_match; [destruct next; repeat bind_float; intros [= <- <-]; by econstructor|]).
  intros [= <- <-]. constructor.
Qed.

Lemma step_invariant (I : interp → Prop) :
  (∀ token st, I st → I (set_command token st)) →
  (∀ c pt st, command st = Some c → I st → I (draw c pt st)) →
  (∀ st, I st → I (close_path st)) →
  ∀ token next st st' two,
    I st → path_step token next st = Ok (st', two) → I st'.
Proof.
  intros Hl Hd Hc token next st st' two HI Hstep.
  destruct (path_step_kind _ _ _ _ _ Hstep); eauto.
Qed.

Lemma loop_invariant (I : interp → Prop) :
  (∀ token next st st' two, I st → path_step token next st = Ok (st', two) → I st') →
  ∀ tokens st segs,
    I st → _parse_path_loop tokens st = Ok segs → ∃ st', I st' ∧ segs = segments st'.
Proof.
  intros Hstep tokens. induction tokens as [|token rest IH1 IH2] using tokens_ind;
    intros st segs HI.
  - intros [= <-]. eauto.
  - rewrite loop_unfold.
    destruct (path_step token (head rest) st) as [[st' two]|e] eqn:Hs; [|done].
    apply Hstep in Hs; [|done]. destruct two; eauto.
Qed.

Lemma run_invariant (I : interp → Prop) :
  (∀ token next st st' two, I st → path_step token next st = Ok (st', two) → I st') →
  ∀ n tokens st tokens' st',
    I st → path_run n tokens st = Ok (tokens', st') → I st'.
Proof.
  intros Hstep n. induction n as [|n IH]; intros tokens st tokens' st' HI; simpl.
  - destruct tokens; by intros [= <- <-].
  - destruct tokens as [|token rest]; [by intros [= <- <-]|].
    destruct (path_step token (head rest) st) as [[st1 two]|e] eqn:Hs; [|done].
    apply Hstep in Hs; [|done]. eauto.
Qed.

Lemma run_loop n tokens st tokens' st' :
  path_run n tokens st = Ok (tokens', st') →
  _parse_path_loop tokens st = _parse_path_loop tokens' st'.
Proof.
  revert tokens st. induction n as [|n IH]; intros tokens st; simpl.
  - destruct tokens; by intros [= <- <-].
  - destruct tokens as [|token rest]; [by intros [= <- <-]|].
    rewrite loop_unfold.
    destruct (path_step token (head rest) st) as [[st1 two]|e] eqn:Hs; [|done].
    apply IH.
Qed.

Ltac eval_one_of :=
  repeat match goal with
  | |- context [one_of ?c ?l] =>
      let b := eval vm_compute in (one_of c l) in
      change (one_of c l) with b
  end.

(** *** Updating the last segment *)

Lemma update_last_cons {A} (f : A → A) x l :
  update_last f (x :: l) = match l with [] => [f x] | _ => x :: update_last f l end.
Proof. unfold update_last. by destruct l. Qed.

Lemma update_last_Forall {A} (P : A → Prop) (f : A → A) l :
  (∀ x, P x → P (f x)) → Forall P l → Forall P (update_last f l).
Proof. intros Hf Hl. unfold update_last. apply Forall_alter; auto. Qed.

Lemma last_update_last {A} (f : A → A) l :
  last (update_last f l) = f <$> last l.
Proof.
  unfold update_last.
  by rewrite !last_lookup, length_alter, list_lookup_alter_eq.
Qed.

(** *** C8: no segment without a point *)

Lemma nonempty_segments_step token next st st' two :
  nonempty_segments st → path_step token next st = Ok (st', two) →
  nonempty_segments st'.
Proof.
  apply (step_invariant nonempty_segments); unfold nonempty_segments.
  - done.
  - intros c pt s _ H. unfold draw. case_match; simpl.
    + apply Forall_app. split; [done|]. by repeat constructor.
    + destruct (segments s) eqn:E; [by repeat constructor|].
      apply update_last_Forall; [|done]. intros seg _. simpl. by destruct (points seg).
  - intros s H. unfold close_path. simpl.
    destruct (segments s) eqn:E; [done|]. destruct (start_point s); [|done].
    by apply update_last_Forall.
Qed.

End PathFacts.

(* ===================================================================== *)
(** * Paths: when the interpreter closes a segment, and when it returns *)
(* ===================================================================== *)

Import Py Re Models ET Parser Numeral Properties Examples StringFacts NumeralFacts FloatFacts ParseFloatFacts PathFacts PathShape.

Module CloseFacts.

(** A turn of the loop at a number. *)
Lemma path_step_number token next st st' two :
  is_letter token = false →
  path_step token next st = Ok (st', two) →
  ∃ c, command st = Some c ∧
       ((∃ pt, one_of c ["Z"; "z"] = false ∧ st' = draw c pt st)
        ∨ (one_of c ["Z"; "z"] = true ∧ st' = close_path st)
        ∨ (one_of c ["Z"; "z"] = false ∧ st' = st)).
Proof.
  intros Hl. unfold path_step. rewrite Hl.
  destruct (command st) as [c|] eqn:Hc; [|done]. intros H. exists c. split; [done|].
  destruct (one_of c ["Z"; "z"]) eqn:Ez.
  - right. left. split; [done|]. unfold one_of in Ez.
    apply bool_decide_eq_true_1 in Ez. revert H.
    repeat (apply elem_of_cons in Ez as [->|Ez];
      [eval_one_of; cbv iota; by intros [= <- <-]|]).
    by apply elem_of_nil in Ez.
  - revert H.
    repeat (case_match;
      [destruct next; repeat bind_float; intros [= <- <-]; left; by eexists|]).
    intros [= <- <-]. by right; right.
Qed.

Lemma path_step_raise_cond token next st e :
  path_step token next st = Raise e → is_letter token = false ∧ command st = None.
Proof.
  unfold path_step. destruct (is_letter token); [done|].
  destruct (command st) as [c|]; [|done].
  repeat (case_match; [destruct next; repeat bind_float; done|]). done.
Qed.

Lemma draw_command c pt st c' :
  command (draw c pt st) = Some c' → c' = "L" ∨ c' = "l" ∨ c' = c.
Proof.
  unfold draw. case_match; simpl; intros [= <-]; [|auto]. case_match; auto.
Qed.

Lemma draw_not_close c pt st c' :
  one_of c ["Z"; "z"] = false →
  command (draw c pt st) = Some c' → one_of c' ["Z"; "z"] = false.
Proof.
  intros Hc H%draw_command. destruct H as [E|[E|E]]; by rewrite E.
Qed.

Lemma closed_free_draw c pt st : closed_free st → closed_free (draw c pt st).
Proof.
  unfold closed_free, draw. intros H. case_match; simpl.
  - apply Forall_app. split; [done|]. by repeat constructor.
  - destruct (segments st) eqn:E; [by repeat constructor|].
    by apply update_last_Forall.
Qed.

Lemma z_then_number_tail token rest :
  z_then_number (token :: rest) = false →
  z_then_number rest = false ∧ z_then_number (List.tl rest) = false
  ∧ (one_of token ["Z"; "z"] = true → starts_with_number rest = false).
Proof.
  destruct rest as [|t rest]; [done|]. cbn [z_then_number].
  intros [H1 H2]%orb_false_elim. split; [done|]. split.
  - destruct rest as [|t' rest]; [done|]. cbn [z_then_number List.tl] in *.
    by apply orb_false_elim in H2 as [_ ?].
  - intros Hz. rewrite Hz in H1. done.
Qed.

Lemma loop_never_closes tokens :
  ∀ st segs,
    z_then_number tokens = false →
    (∀ c, command st = Some c → one_of c ["Z"; "z"] = true →
          starts_with_number tokens = false) →
    closed_free st →
    _parse_path_loop tokens st = Ok segs →
    Forall (λ seg, closed seg = false) segs.
Proof.
  induction tokens as [|token rest IH1 IH2] using tokens_ind;
    intros st segs Hz Hcmd Hfree.
  { by intros [= <-]. }
  apply z_then_number_tail in Hz as (Hz1 & Hz2 & Hz3).
  rewrite loop_unfold.
  destruct (path_step token (head rest) st) as [[st' two]|e] eqn:Hs; [|done].
  destruct (is_letter token) eqn:Hl.
  - unfold path_step in Hs. rewrite Hl in Hs. injection Hs as <- <-.
    apply IH1; [done| |done]. intros c [= <-]. apply Hz3.
  - apply (path_step_number _ _ _ _ _ Hl) in Hs as (c & Hc & Hcases).
    assert (one_of c ["Z"; "z"] = false) as Hnz.
    { destruct (one_of c ["Z"; "z"]) eqn:E; [|done].
      specialize (Hcmd c Hc E). simpl in Hcmd. by rewrite Hl in Hcmd. }
    destruct Hcases as [(pt & _ & ->)|[[Hbad _]|[_ ->]]]; [|congruence|].
    + destruct two; [apply IH2|apply IH1]; try done;
        try (by apply closed_free_draw);
        intros c' Hc' Hz'; by rewrite (draw_not_close _ _ _ _ Hnz Hc') in Hz'.
    + destruct two; [apply IH2|apply IH1]; try done;
        intros c' Hc' Hz'; congruence.
Qed.

Lemma loop_returns tokens :
  ∀ st,
    z_then_number tokens = false →
    (command st = None ∨ (∃ c, command st = Some c ∧ one_of c ["Z"; "z"] = true) →
     starts_with_number tokens = false) →
    returns (_parse_path_loop tokens st).
Proof.
  induction tokens as [|token rest IH1 IH2] using tokens_ind; intros st Hz Hcmd.
  { by eexists. }
  apply z_then_number_tail in Hz as (Hz1 & Hz2 & Hz3).
  rewrite loop_unfold.
  destruct (is_letter token) eqn:Hl.
  - unfold path_step. rewrite Hl.
    apply IH1; [done|]. intros [Hbad|(c & [= <-] & Hzc)]; [done|]. by apply Hz3.
  - assert (∃ c, command st = Some c ∧ one_of c ["Z"; "z"] = false) as (c & Hc & Hnz).
    { destruct (command st) as [c|] eqn:Hc.
      - exists c. split; [done|]. destruct (one_of c ["Z"; "z"]) eqn:E; [|done].
        assert (starts_with_number (token :: rest) = false) as Hbad by eauto.
        simpl in Hbad. by rewrite Hl in Hbad.
      - assert (starts_with_number (token :: rest) = false) as Hbad by eauto.
        simpl in Hbad. by rewrite Hl in Hbad. }
    destruct (path_step token (head rest) st) as [[st' two]|e] eqn:Hs.
    2:{ apply path_step_raise_cond in Hs as [_ Hs]. congruence. }
    apply (path_step_number _ _ _ _ _ Hl) in Hs as (c0 & Hc0 & Hcases).
    assert (c0 = c) as -> by congruence.
    assert (∀ rest', z_then_number rest' = false →
              (∀ st1, z_then_number rest' = false →
                 (command st1 = None
                  ∨ (∃ c, command st1 = Some c ∧ one_of c ["Z"; "z"] = true) →
                  starts_with_number rest' = false) →
                 returns (_parse_path_loop rest' st1)) →
              returns (_parse_path_loop rest' st')) as Hgo.
    { intros rest' Hz' IH. apply IH; [done|].
      destruct Hcases as [(pt & _ & ->)|[[Hbad _]|[_ ->]]]; [|congruence|].
      - intros [Hbad|(c' & Hc' & Hz'')].
        + unfold draw in Hbad. by case_match.
        + by rewrite (draw_not_close _ _ _ _ Hnz Hc') in Hz''.
      - intros [Hbad|(c' & Hc' & Hz'')]; congruence. }
    destruct two; by apply Hgo.
Qed.

(** The turns of the loop read the tokens from left to right. *)
Lemma run_suffix n tokens st tokens' st' :
  path_run n tokens st = Ok (tokens', st') → ∃ read, tokens = read ++ tokens'.
Proof.
  revert tokens st. induction n as [|n IH]; intros tokens st; simpl.
  - destruct tokens; intros [= <- <-]; by exists [].
  - destruct tokens as [|token rest]; [intros [= <- <-]; by exists []|].
    destruct (path_step token (head rest) st) as [[st1 two]|e]; [|done].
    intros [read E]%IH. destruct two.
    + destruct rest as [|t rest]; simpl in E.
      * symmetry in E. apply app_eq_nil in E as [-> ->]. by exists [token].
      * exists (token :: t :: read). by rewrite E.
    + exists (token :: read). by rewrite E.
Qed.

Lemma z_then_number_suffix read tokens :
  z_then_number (read ++ tokens) = false → z_then_number tokens = false.
Proof.
  induction read as [|t read IH]; [done|].
  rewrite <- app_comm_cons. intros H%z_then_number_tail. apply IH, H.
Qed.

End CloseFacts.

(* ===================================================================== *)
(** * Paths: claims C2, C6, C8 and C10 *)
(* ===================================================================== *)

Import Py Re Models ET Parser Numeral Properties Examples StringFacts NumeralFacts FloatFacts ParseFloatFacts PathFacts PathShape CloseFacts.

Module PathClaims.

Lemma draw_segments_nonempty c pt st : segments (draw c pt st) ≠ [].
Proof.
  unfold draw. case_match; simpl.
  - by destruct (segments st).
  - destruct (segments st) as [|seg more] eqn:E; [done|].
    rewrite update_last_cons. by destruct more.
Qed.

Lemma fresh_cursor_step token next st st' two :
  fresh_cursor st → path_step token next st = Ok (st', two) → fresh_cursor st'.
Proof.
  apply (step_invariant fresh_cursor); unfold fresh_cursor.
  - done.
  - intros c pt s _ _ H. by apply draw_segments_nonempty in H.
  - intros s H. unfold close_path. simpl.
    destruct (segments s) as [|seg more] eqn:E.
    + intros _. destruct (H eq_refl) as [-> ->]. done.
    + destruct (start_point s); [|done].
      rewrite update_last_cons. by destruct more.
Qed.

Lemma first_segment_starts_step a b token next st st' two :
  first_segment_starts a b st → path_step token next st = Ok (st', two) →
  first_segment_starts a b st'.
Proof.
  apply (step_invariant (first_segment_starts a b)); unfold first_segment_starts.
  - done.
  - intros c pt s _ (seg & more & rest & E & Hp). unfold draw. rewrite E.
    case_match; simpl; [by eauto 6|].
    rewrite update_last_cons. destruct more; [|by eauto 6].
    eexists _, _, _. split; [done|]. simpl. by rewrite Hp.
  - intros s (seg & more & rest & E & Hp). unfold close_path. simpl. rewrite E.
    destruct (start_point s); [|by eauto 6].
    rewrite update_last_cons. destruct more; by eauto 6.
Qed.

(** A turn at a number under a line command, with no segment yet and the
    cursor at the origin. *)
Lemma line_command_step c token next st x y :
  c ∈ ["L"; "l"; "H"; "h"; "V"; "v"] →
  is_letter token = false → command st = Some c → segments st = [] →
  cursor st = (fzero, fzero) →
  _parse_float (Some token) fzero = Ok x →
  match next with
  | Some t => ∃ number, _parse_float (Some t) fzero = Ok number ∧ y = Some number
  | None => y = None
  end →
  ∃ st' two,
    path_step token next st = Ok (st', two) ∧
    cursor st' = line_from_origin c x y ∧
    segments st'
    = [ {| points := [(fzero, fzero); line_from_origin c x y]; closed := false |} ].
Proof.
  intros Hin Hl Hc Hs Hcur Hx Hy. unfold path_step. rewrite Hl, Hc, Hx, Hcur.
  repeat (apply elem_of_cons in Hin as [->|Hin];
    [eval_one_of; cbv iota; cbn [mbind result_bind fst snd];
     destruct next as [t|];
       [destruct Hy as (number & Hn & ->); try rewrite Hn|rewrite Hy];
     cbn [mbind result_bind];
     eexists _, _; (split; [reflexivity|]); unfold draw; eval_one_of;
     cbv iota; simpl; by rewrite Hs, Hcur|]).
  by apply elem_of_nil in Hin.
Qed.

(** Claim C6.  When the loop of [_parse_path], after some turns on the
    tokens of [d], stands at a number with one of the commands L, l, H,
    h, V, v active and no segment yet, this turn returns and makes the
    segment list one open segment of two points: the origin, where the
    cursor still is, followed by the point that the command reaches from
    the origin for the number [x] read from this token and the number [y]
    read from the next one, which becomes the cursor.  In whatever
    [_parse_path d] returns, the first segment starts with those two
    points, so it has at least two; and [_parse_path d] does return when
    no [Z] or [z] of [d] is directly followed by a number. *)
Theorem path_synthesized_segment d n token rest st c :
  path_run n (_path_tokens d) interp_init = Ok (token :: rest, st) →
  is_letter token = false →
  command st = Some c → c ∈ ["L"; "l"; "H"; "h"; "V"; "v"] →
  segments st = [] →
  ∃ x y st' two,
    _parse_float (Some token) fzero = Ok x ∧
    match head rest with
    | Some t => ∃ number, _parse_float (Some t) fzero = Ok number ∧ y = Some number
    | None => y = None
    end ∧
    path_step token (head rest) st = Ok (st', two) ∧
    cursor st' = line_from_origin c x y ∧
    segments st'
    = [ {| points := [(fzero, fzero); line_from_origin c x y]; closed := false |} ] ∧
    (∀ segs, _parse_path d = Ok segs →
       ∃ seg more others,
         segs = seg :: more ∧
         points seg = (fzero, fzero) :: line_from_origin c x y :: others) ∧
    (z_then_number (_path_tokens d) = false → ∃ segs, _parse_path d = Ok segs).
Proof.
  intros Hrun Hl Hc Hin Hs.
  assert (fresh_cursor st) as Hfresh.
  { eapply (run_invariant fresh_cursor); [apply fresh_cursor_step| |apply Hrun]. done. }
  destruct (Hfresh Hs) as [Hcur _].
  destruct (parse_float_returns (Some token) fzero) as [x Hx].
  assert (∃ y, match head rest with
               | Some t => ∃ number, _parse_float (Some t) fzero = Ok number
                                     ∧ y = Some number
               | None => y = None
               end) as [y Hy].
  { destruct (head rest) as [t|]; [|by exists None].
    destruct (parse_float_returns (Some t) fzero) as [number Hn].
    exists (Some number). eauto. }
  destruct (line_command_step c token (head rest) st x y Hin Hl Hc Hs Hcur Hx Hy)
    as (st' & two & Hstep & Hcursor & Hsegs).
  exists x, y, st', two.
  split; [done|]. split; [done|]. split; [done|]. split; [done|]. split; [done|].
  unfold _parse_path. rewrite (run_loop _ _ _ _ _ Hrun). split.
  - intros segs. rewrite loop_unfold, Hstep. intros Hloop.
    apply (loop_invariant (first_segment_starts (fzero, fzero) (line_from_origin c x y)))
      in Hloop as (st'' & (seg & more & others & E & Hp) & ->).
    + eauto.
    + apply first_segment_starts_step.
    + eexists _, _, _. split; [apply Hsegs|done].
  - intros Hz. destruct (run_suffix _ _ _ _ _ Hrun) as [read E].
    rewrite E in Hz. apply z_then_number_suffix in Hz.
    apply loop_returns; [done|].
    intros [Hnone|(c' & Hc' & Hz')]; [congruence|].
    assert (c' = c) as -> by congruence.
    repeat (apply elem_of_cons in Hin as [->|Hin]; [discriminate Hz'|]).
    by apply elem_of_nil in Hin.
Qed.

(** The case of ["L10,20 30,40"], after the turn that reads [L]: the
    segment made is [(0,0), (10,20)], and the path comes out as the one
    segment [(0,0), (10,20), (30,40)]. *)
Lemma path_synthesized_segment_witness :
  (∃ segs seg more others,
     _parse_path "L10,20 30,40" = Ok segs ∧ segs = seg :: more ∧
     points seg = (Finite 0, Finite 0) :: (Finite 10, Finite 20) :: others)
  ∧ _parse_path "L10,20 30,40"
    = Ok [ {| points := [(Finite 0, Finite 0); (Finite 10, Finite 20);
                         (Finite 30, Finite 40)];
              closed := false |} ]
  ∧ _parse_path "h3"
    = Ok [ {| points := [(Finite 0, Finite 0); (Finite 3, Finite 0)];
              closed := false |} ].
Proof.
  split; [|split; reflexivity].
  destruct (path_synthesized_segment "L10,20 30,40" 1 "10" ["20"; "30"; "40"]
              (set_command "L" interp_init) "L")
    as (x & y & st' & two & Hx & (number & Hn & Hy) & _ & _ & _ & Hfirst & Hret);
    [reflexivity|reflexivity|reflexivity|set_solver|reflexivity|].
  vm_compute in Hx. injection Hx as Hx. vm_compute in Hn. injection Hn as Hn.
  subst x number y.
  destruct Hret as [segs Hsegs]; [reflexivity|].
  destruct (Hfirst segs Hsegs) as (seg & more & others & E & Hp).
  exists segs, seg, more, others. split; [exact Hsegs|]. split; [exact E|exact Hp].
Defined.

(** Claim C8.  Every segment in the list that [_parse_path] returns has
    at least one point, for every [d]. *)
Theorem parse_path_segments_nonempty d segs :
  _parse_path d = Ok segs → Forall (λ seg, points seg ≠ []) segs.
Proof.
  unfold _parse_path. intros H.
  apply (loop_invariant nonempty_segments) in H as (st & Hst & ->).
  - done.
  - intros. by eapply nonempty_segments_step.
  - constructor.
Qed.

(** The case of ["M1,2 M3,4 H5"]. *)
Lemma parse_path_segments_nonempty_witness :
  Forall (λ seg, points seg ≠ [])
    [ {| points := [(Finite 1, Finite 2)]; closed := false |};
      {| points := [(Finite 3, Finite 4); (Finite 5, Finite 4)]; closed := false |} ].
Proof.
  apply (parse_path_segments_nonempty "M1,2 M3,4 H5"). reflexivity.
Defined.

Lemma last_point_draw c pt st : last_point (segments (draw c pt st)) = Some pt.
Proof.
  unfold last_point, draw. case_match; simpl.
  - by rewrite last_snoc.
  - destruct (segments st) as [|seg more] eqn:E; [done|].
    rewrite last_update_last.
    destruct (last (seg :: more)) as [s|] eqn:El; [|by rewrite last_cons in El; destruct (last more)].
    simpl. by rewrite last_snoc.
Qed.

(** Claim C10.  When the loop of [_parse_path] stands at the last token
    of [d], a number, [_parse_path d] returns: with M or L active, the
    point it ends on is that number paired with 0.0; with m or l active,
    it is the cursor moved in x by that number, the cursor's y kept. *)
Theorem path_missing_y d n token st c :
  path_run n (_path_tokens d) interp_init = Ok ([token], st) →
  is_letter token = false →
  command st = Some c →
  (c ∈ ["M"; "L"] →
   ∃ x segs,
     _parse_float (Some token) fzero = Ok x ∧ _parse_path d = Ok segs ∧
     last_point segs = Some (x, fzero))
  ∧
  (c ∈ ["m"; "l"] →
   ∃ dx segs,
     _parse_float (Some token) fzero = Ok dx ∧ _parse_path d = Ok segs ∧
     last_point segs = Some (fadd (cursor st).1 dx, (cursor st).2)).
Proof.
  intros Hrun Hl Hc. unfold _parse_path.
  rewrite (run_loop _ _ _ _ _ Hrun), loop_unfold. unfold path_step.
  rewrite Hl, Hc. destruct (parse_float_returns (Some token) fzero) as [x Hx].
  split; intros Hin.
  - exists x. repeat (apply elem_of_cons in Hin as [->|Hin];
      [eval_one_of; cbv iota; rewrite Hx; cbn [mbind result_bind head];
       eexists; split; [done|]; split; [reflexivity|]; apply last_point_draw|]).
    by apply elem_of_nil in Hin.
  - exists x. repeat (apply elem_of_cons in Hin as [->|Hin];
      [eval_one_of; cbv iota; rewrite Hx; cbn [mbind result_bind head];
       eexists; split; [done|]; split; [reflexivity|]; apply last_point_draw|]).
    by apply elem_of_nil in Hin.
Qed.

(** The cases of ["M1,2 L5"] and ["M1,2 l5"]. *)
Lemma path_missing_y_witness :
  (∃ x segs,
     _parse_float (Some "5") fzero = Ok x ∧ _parse_path "M1,2 L5" = Ok segs ∧
     last_point segs = Some (x, fzero))
  ∧
  (∃ dx segs,
     _parse_float (Some "5") fzero = Ok dx ∧ _parse_path "M1,2 l5" = Ok segs ∧
     last_point segs = Some (fadd (Finite 1) dx, Finite 2)).
Proof.
  split.
  - apply (path_missing_y "M1,2 L5" 3 "5"
             (set_command "L" (draw "M" (Finite 1, Finite 2) interp_init)) "L");
      [reflexivity..|set_solver].
  - apply (path_missing_y "M1,2 l5" 3 "5"
             (set_command "l" (draw "M" (Finite 1, Finite 2) interp_init)) "l");
      [reflexivity..|set_solver].
Defined.

(** Claim C2, on the code.  On the path of the specification's example,
    ["M0,0 L10,0 L10,10 Z"], [_parse_path] returns the one segment with
    the three points, but with [closed = false]: a [Z] read as a letter
    only becomes the active command, and the branch that closes the
    segment is taken at the next token when that is a number, as in
    ["M0,0 L10,0 L10,10 Z 7"].  A [Z] or [z] that ends the token list
    leaves the segments as they are. *)
Theorem close_command_needs_a_number :
  _parse_path "M0,0 L10,0 L10,10 Z"
  = Ok [ {| points := [(Finite 0, Finite 0); (Finite 10, Finite 0);
                       (Finite 10, Finite 10)];
            closed := false |} ]
  ∧ _parse_path "M0,0 L10,0 L10,10 Z 7"
    = Ok [ {| points := [(Finite 0, Finite 0); (Finite 10, Finite 0);
                         (Finite 10, Finite 10)];
              closed := true |} ]
  ∧ ∀ st, _parse_path_loop ["Z"] st = Ok (segments st)
          ∧ _parse_path_loop ["z"] st = Ok (segments st).
Proof. repeat split; reflexivity. Qed.

End PathClaims.

(* ===================================================================== *)
(** * Colours and styles: claims C3 and C5 *)
(* ===================================================================== *)

Import Py Re Models ET Parser Numeral Properties Examples StringFacts NumeralFacts FloatFacts ParseFloatFacts.

Module StyleClaims.

Lemma bind_Ok {A B} (m : result A) (f : A → result B) b :
  m ≫= f = Ok b → ∃ a, m = Ok a ∧ f a = Ok b.
Proof. destruct m as [a|e]; [eauto|done]. Qed.

(** Claim C3.  [_parse_color] gives absent for an absent input, for the
    empty string and for every text that is [none] in some letter case
    once stripped; ["#ff0000"] for ["red"] and for ["rgb(255,0,0)"]; and
    ["#abcdef"] for ["#ABCDEF"]. *)
Theorem parse_color_values :
  _parse_color None = Ok None ∧
  _parse_color (Some EmptyString) = Ok None ∧
  (∀ s, lower (strip s) = "none" → _parse_color (Some s) = Ok None) ∧
  _parse_color (Some "red") = Ok (Some "#ff0000") ∧
  _parse_color (Some "rgb(255,0,0)") = Ok (Some "#ff0000") ∧
  _parse_color (Some "#ABCDEF") = Ok (Some "#abcdef").
Proof.
  split; [reflexivity|]. split; [reflexivity|].
  split; [|repeat split; reflexivity].
  intros s Hs. unfold _parse_color.
  destruct (strip s) as [|c r] eqn:E; [done|]. rewrite Hs. reflexivity.
Qed.

(** The cases of [" NoNe "] and ["NONE"]. *)
Lemma parse_color_values_witness :
  _parse_color (Some " NoNe ") = Ok None ∧ _parse_color (Some "NONE") = Ok None.
Proof.
  destruct parse_color_values as (_ & _ & H & _).
  split; apply H; reflexivity.
Defined.

(** Claim C5.  In the style that [_extract_style] returns, each of fill,
    stroke, stroke-width and opacity comes from the element's attribute
    of that name when there is one, whatever the style block declares,
    and from the style block's declaration only when the attribute is
    absent.  The element with [fill="#111111"] and the style block
    [fill:#222222] resolves its fill to ["#111111"]. *)
Theorem style_attribute_precedence :
  (∀ element base_style st,
     _extract_style element base_style = Ok st →
     ∃ inline,
       _merge_style element = Ok inline ∧
       let base_width :=
         match base_style with Some b => stroke_width b | None => Finite 1 end in
       let base_opacity :=
         match base_style with Some b => opacity b | None => Finite 1 end in
       (∀ a, attrib element !! "fill" = Some a →
             _parse_color (Some a) = Ok (fill_color st)) ∧
       (attrib element !! "fill" = None →
        _parse_color (inline !! "fill") = Ok (fill_color st)) ∧
       (∀ a, attrib element !! "stroke" = Some a →
             _parse_color (Some a) = Ok (stroke_color st)) ∧
       (attrib element !! "stroke" = None →
        _parse_color (inline !! "stroke") = Ok (stroke_color st)) ∧
       (∀ a, attrib element !! "stroke-width" = Some a →
             _parse_float (Some a) base_width = Ok (stroke_width st)) ∧
       (attrib element !! "stroke-width" = None →
        _parse_float (inline !! "stroke-width") base_width = Ok (stroke_width st)) ∧
       (∀ a, attrib element !! "opacity" = Some a →
             float_of_str a = Ok (opacity st)) ∧
       (attrib element !! "opacity" = None →
        match inline !! "opacity" with
        | Some o => float_of_str o = Ok (opacity st)
        | None => opacity st = base_opacity
        end))
  ∧ fill_color <$> _extract_style precedence_example None = Ok (Some "#111111").
Proof.
  split; [|reflexivity].
  intros element base_style st H. unfold _extract_style, get in H.
  apply bind_Ok in H as (inline & Hin & H).
  apply bind_Ok in H as (fc & Hfc & H).
  apply bind_Ok in H as (sc & Hsc & H).
  apply bind_Ok in H as (sw & Hsw & H).
  apply bind_Ok in H as (op & Hop & H).
  injection H as <-. exists inline. split; [done|]. simpl.
  repeat split.
  - intros a Ha. by rewrite Ha in Hfc.
  - intros Ha. by rewrite Ha in Hfc.
  - intros a Ha. by rewrite Ha in Hsc.
  - intros Ha. by rewrite Ha in Hsc.
  - intros a Ha. by rewrite Ha in Hsw.
  - intros Ha. by rewrite Ha in Hsw.
  - intros a Ha. by rewrite Ha in Hop.
  - intros Ha. rewrite Ha in Hop. destruct (inline !! "opacity"); [done|]. by injection Hop.
Qed.

(** The fill of the example element comes from its attribute. *)
Lemma style_attribute_precedence_witness :
  _parse_color (Some "#111111")
  = Ok (fill_color
          {| fill_color := Some "#111111"; stroke_color := None;
             stroke_width := Finite 1; opacity := Finite 1 |}).
Proof.
  destruct (proj1 style_attribute_precedence precedence_example None
              {| fill_color := Some "#111111"; stroke_color := None;
                 stroke_width := Finite 1; opacity := Finite 1 |} eq_refl)
    as (inline & _ & H & _).
  apply H. reflexivity.
Defined.

End StyleClaims.

(* ===================================================================== *)
(** * The normalisers never raise *)
(* ===================================================================== *)

Import Py Re Models ET Parser Numeral Properties Examples StringFacts NumeralFacts FloatFacts ParseFloatFacts PathFacts StyleClaims.

Module Totality.

Lemma finditer_Forall (P : string → Prop) match_at :
  (∀ s m, match_at s = Some m → P m) →
  ∀ s skip, Forall P (finditer_from match_at skip s).
Proof.
  intros HP s. induction s as [|c s IH]; intros skip; simpl; [constructor|].
  destruct skip; [|apply IH].
  destruct (match_at (String c s)) as [m|] eqn:Hm; [|apply IH].
  constructor; [by eapply HP|apply IH].
Qed.

Lemma findall_Forall (P : string → Prop) match_at s :
  (∀ s m, match_at s = Some m → P m) → Forall P (findall match_at s).
Proof. intros. by apply finditer_Forall. Qed.

Lemma mapM_returns {A B} (f : A → result B) l :
  Forall (λ x, returns (f x)) l → returns (mapM f l).
Proof.
  induction 1 as [|x l [y Hy] _ [k Hk]]; [by exists []|].
  exists (y :: k). simpl. rewrite Hy. cbn [mbind result_bind]. by rewrite Hk.
Qed.

Lemma returns_bind {A B} (m : result A) (f : A → result B) :
  returns m → (∀ a, returns (f a)) → returns (m ≫= f).
Proof. intros [a ->] Hf. apply Hf. Qed.

Lemma returns_fmap {A B} (g : A → B) (m : result A) :
  returns m → returns (g <$> m).
Proof. intros [a ->]. by eexists. Qed.

Lemma returns_Ok {A} (a : A) : returns (Ok a).
Proof. by eexists. Qed.

(** *** [int] of a run of digits *)

Lemma digits_at_inv s m : digits_at s = Some m → digit_string m.
Proof.
  unfold digits_at. destruct (span isdigit s) as [ds r] eqn:E.
  apply span_spec in E as (_ & Hds & _).
  destruct ds; [done|]. intros [= <-]. by split.
Qed.

Lemma int_of_str_digits v :
  digit_string v →
  int_of_str v
  = if oversized v then Raise (ValueError (int_limit_message (String.length v)))
    else Ok (Z.of_N (digits_value v)).
Proof.
  intros Hv. unfold int_of_str, oversized.
  rewrite strip_c_id by (destruct Hv as [Hv _]; revert Hv; apply all_impl, digit_nonspace).
  destruct (digit_string_cons _ Hv) as (c & r & E & Hc & Hr).
  rewrite E at 1. rewrite digit_not_sign by done. rewrite <- E.
  rewrite digitpart_all by done. rewrite E at 1. reflexivity.
Qed.

(** The conversion of the runs of digits of an [rgb] form: it stops at
    the first run that [int] refuses. *)
Lemma mapM_int_runs runs :
  Forall digit_string runs →
  mapM (λ v, n ← int_of_str v; Ok (format_02x n)) runs
  = match find oversized runs with
    | Some d => Raise (ValueError (int_limit_message (String.length d)))
    | None => Ok ((λ d, format_02x (Z.of_N (digits_value d))) <$> runs)
    end.
Proof.
  induction 1 as [|d runs Hd _ IH]; [done|].
  cbn [mapM find]. rewrite int_of_str_digits by done.
  destruct (oversized d); [done|]. cbn [mbind result_bind]. rewrite IH.
  by destruct (find oversized runs).
Qed.

Lemma existsb_find {A} (p : A → bool) l :
  existsb p l = true ↔ ∃ x, find p l = Some x.
Proof.
  induction l as [|a l IH]; simpl; [split; [done|by intros [? ?]]|].
  destruct (p a); [split; eauto|]. done.
Qed.

(** *** When [_parse_color] raises *)

Lemma color_names_not_rgb k x :
  _COLOR_NAMES !! k = Some x → startswith "rgb" x = false.
Proof.
  unfold _COLOR_NAMES. intros H%elem_of_list_to_map_2.
  repeat (apply elem_of_cons in H as [[= -> ->]|H]; [reflexivity|]).
  by apply elem_of_nil in H.
Qed.

Lemma startswith_rgb s :
  startswith "rgb" s = true → ∃ r, s = String "r" (String "g" (String "b" r)).
Proof.
  unfold startswith. destruct s as [|a [|b [|c r]]]; cbn [String.prefix]; try done.
  - by destruct (ascii_dec "r" a).
  - destruct (ascii_dec "r" a); [|done]. by destruct (ascii_dec "g" b).
  - destruct (ascii_dec "r" a) as [<-|]; [|done].
    destruct (ascii_dec "g" b) as [<-|]; [|done].
    destruct (ascii_dec "b" c) as [<-|]; [|done]. eauto.
Qed.

Lemma color_names_rgb r :
  _COLOR_NAMES !! lower (String "r" (String "g" (String "b" r))) = None.
Proof.
  unfold _COLOR_NAMES. apply not_elem_of_list_to_map_1. simpl.
  intros H. repeat (apply elem_of_cons in H as [H|H]; [discriminate H|]).
  by apply elem_of_nil in H.
Qed.

(** The [rgb] branch: the text is not a colour name, not [none] and does
    not start with [#]. *)
Lemma rgb_branch v :
  startswith "rgb" (strip v) = true →
  _parse_color (Some v)
  = let runs := findall digits_at (strip v) in
    if (length runs =? 3)%nat then
      comps ← mapM (λ v, n ← int_of_str v; Ok (format_02x n)) runs;
      Ok (Some (String "#" (join EmptyString comps)))
    else Ok (Some (strip v)).
Proof.
  intros Hrgb. unfold _parse_color.
  destruct (startswith_rgb _ Hrgb) as [r E]. rewrite E in *.
  cbn [truthy negb]. rewrite color_names_rgb. cbn [default from_option id].
  replace (String.eqb (lower (String "r" (String "g" (String "b" r)))) "none")
    with false by done.
  replace (startswith "#" (String "r" (String "g" (String "b" r)))) with false
    by (unfold startswith; cbn [String.prefix]; by destruct (ascii_dec "#" "r")).
  cbn [andb]. by rewrite Hrgb.
Qed.

Lemma parse_color_other v :
  startswith "rgb" (strip v) = false → returns (_parse_color (Some v)).
Proof.
  intros Hrgb. unfold _parse_color.
  destruct (negb (truthy (strip v))); [apply returns_Ok|].
  destruct (_COLOR_NAMES !! lower (strip v)) as [x|] eqn:Hx;
    cbn [default from_option id].
  - rewrite (color_names_not_rgb _ _ Hx).
    repeat (case_match; try apply returns_Ok).
  - rewrite Hrgb. repeat (case_match; try apply returns_Ok).
Qed.

Lemma runs_digit_strings s : Forall digit_string (findall digits_at s).
Proof. apply findall_Forall. intros ? ?. apply digits_at_inv. Qed.

(** [_parse_color] raises exactly on an [rgb] form with three runs of
    digits of which one is longer than [int] accepts; the error is that
    of the first such run. *)
Lemma parse_color_raises value e :
  _parse_color value = Raise e →
  ∃ v d,
    value = Some v ∧ oversized_rgb v = true ∧
    find oversized (findall digits_at (strip v)) = Some d ∧
    e = ValueError (int_limit_message (String.length d)).
Proof.
  destruct value as [v|]; [|done]. intros H. exists v.
  destruct (startswith "rgb" (strip v)) eqn:Hrgb.
  2:{ destruct (parse_color_other v Hrgb) as [c Hc]. congruence. }
  rewrite rgb_branch in H by done. cbv zeta in H.
  unfold oversized_rgb. rewrite Hrgb.
  destruct (length (findall digits_at (strip v)) =? 3)%nat; [|done].
  rewrite mapM_int_runs in H by apply runs_digit_strings.
  destruct (find oversized (findall digits_at (strip v))) as [d|] eqn:Hd; [|done].
  injection H as <-. exists d. split; [done|]. split; [|done].
  cbn [andb]. apply existsb_find. eauto.
Qed.

Lemma parse_color_oversized v :
  oversized_rgb v = true → ∃ e, _parse_color (Some v) = Raise e.
Proof.
  unfold oversized_rgb. intros H.
  apply andb_prop in H as [H Hex]. apply andb_prop in H as [Hrgb Hlen].
  rewrite rgb_branch by done. cbv zeta. rewrite Hlen.
  rewrite mapM_int_runs by apply runs_digit_strings.
  apply existsb_find in Hex as [d ->]. by eexists.
Qed.

Lemma parse_color_returns value :
  returns (_parse_color value) ↔ ∀ v, value = Some v → oversized_rgb v = false.
Proof.
  split.
  - intros [c Hc] v ->. destruct (oversized_rgb v) eqn:E; [|done].
    destruct (parse_color_oversized v E) as [e He]. congruence.
  - intros H. destruct (_parse_color value) as [c|e] eqn:E; [by eexists|].
    apply parse_color_raises in E as (v & d & -> & Hv & _).
    rewrite (H v eq_refl) in Hv. done.
Qed.

(** *** The style block *)

Lemma split1_go_contains sep cur s :
  contains sep s = true → ∃ a b, split1_go sep cur s = [a; b].
Proof.
  revert cur. induction s as [|c s IH]; intros cur; simpl; [done|].
  rewrite (Ascii.eqb_sym c sep). destruct (Ascii.eqb sep c); eauto.
Qed.

Lemma merge_declaration_returns style decl :
  returns (merge_declaration style decl).
Proof.
  unfold merge_declaration. destruct (contains ":" decl) eqn:Hc; [|apply returns_Ok].
  destruct (split1_go_contains ":" EmptyString decl Hc) as (a & b & E).
  unfold split1. rewrite E. apply returns_Ok.
Qed.

Lemma merge_declarations_returns declarations style :
  returns (merge_declarations style declarations).
Proof.
  revert style. induction declarations as [|decl rest IH]; intros style; simpl.
  - apply returns_Ok.
  - apply returns_bind; [apply merge_declaration_returns|auto].
Qed.

Lemma merge_style_returns element : returns (_merge_style element).
Proof.
  unfold _merge_style. destruct (attrib element !! "style").
  - apply merge_declarations_returns.
  - apply returns_Ok.
Qed.

End Totality.

(* ===================================================================== *)
(** * Point lists and path errors *)
(* ===================================================================== *)

Import Py Re Models ET Parser Numeral Properties Examples StringFacts NumeralFacts FloatFacts ParseFloatFacts PathFacts StyleClaims Totality.

Module Extractors.

(** *** Splitting at a separator *)

Lemma rev_app_app s a : String.rev_app s a = String.rev_app s EmptyString +:+ a.
Proof.
  revert a. induction s as [|c s IH]; intros a; [done|]. simpl.
  rewrite (IH (String c a)), (IH (String c EmptyString)). by rewrite sapp_assoc.
Qed.

Lemma rev_cons c s : String.rev (String c s) = String.rev s +:+ String c EmptyString.
Proof. unfold String.rev. simpl. apply rev_app_app. Qed.

Lemma split_go_plain sep cur a :
  all (differs sep) a = true → split_go sep cur a = [String.rev cur +:+ a].
Proof.
  revert cur. induction a as [|c a IH]; intros cur; simpl.
  - by rewrite sapp_nil_r.
  - intros [Hc Ha]%andb_prop. unfold differs in Hc.
    apply negb_true_iff in Hc. rewrite Hc, IH by done.
    by rewrite rev_cons, sapp_assoc.
Qed.

Lemma split_go_sep sep cur a b :
  all (differs sep) a = true →
  split_go sep cur (a +:+ String sep b)
  = (String.rev cur +:+ a) :: split_go sep EmptyString b.
Proof.
  revert cur. induction a as [|c a IH]; intros cur.
  - intros _. rewrite sapp_nil_l, sapp_nil_r. simpl. by rewrite Ascii.eqb_refl.
  - intros H. simpl in H. apply andb_prop in H as [Hc Ha]. unfold differs in Hc.
    apply negb_true_iff in Hc. rewrite sapp_cons. simpl. rewrite Hc, IH by done.
    by rewrite rev_cons, sapp_assoc.
Qed.

Lemma render_no_comma n : wf n → all (differs ",") (render n) = true.
Proof.
  intros [[Hip _] Hfp]. unfold render, unsigned_text.
  assert (∀ s, all isdigit s = true → all (differs ",") s = true) as Hd.
  { intros s. apply all_impl. intros c. by_chars c. }
  assert (all (differs ",") (int_digits n +:+
    match frac_digits n with Some fp => String "." fp | None => EmptyString end) = true) as H.
  { rewrite all_app, Hd by done. destruct (frac_digits n) as [fp|]; [|done].
    destruct Hfp as [Hfp _]. simpl. by rewrite (Hd fp). }
  destruct (negative n); [|done]. simpl. by rewrite H.
Qed.

Lemma pair_at_inv s m :
  pair_at s = Some m →
  ∃ n1 n2, wf n1 ∧ wf n2 ∧ m = render n1 +:+ String "," (render n2).
Proof.
  unfold pair_at. destruct (signed_at s) as [[a rest]|] eqn:Ha; [|done].
  destruct rest as [|c r]; [done|].
  destruct (Ascii.eqb_spec c ",") as [->|Hc];
    [|by destruct c as [[] [] [] [] [] [] [] []]].
  destruct (signed_at r) as [[b rest']|] eqn:Hb; [|done].
  intros [= <-].
  apply signed_at_inv in Ha as (n1 & ? & -> & _).
  apply signed_at_inv in Hb as (n2 & ? & -> & _). eauto.
Qed.

Lemma parse_pair_returns s m : pair_at s = Some m → returns (parse_pair m).
Proof.
  intros (n1 & n2 & H1 & H2 & ->)%pair_at_inv. unfold parse_pair, split.
  rewrite split_go_sep by by apply render_no_comma.
  rewrite split_go_plain by by apply render_no_comma.
  cbn [unpack2 mbind result_bind].
  apply returns_bind; [apply parse_float_returns|intros x].
  apply returns_bind; [apply parse_float_returns|intros y]. apply returns_Ok.
Qed.

Lemma points_of_numbers_returns numbers indices points :
  returns (points_of_numbers numbers indices points).
Proof.
  revert points. induction indices as [|i rest IH]; intros points;
    cbn [points_of_numbers].
  - apply returns_Ok.
  - unfold index.
    destruct (numbers !! i) as [a|]; cbn [mbind result_bind]; [|apply returns_Ok].
    destruct (parse_float_returns (Some a) fzero) as [x ->]. cbn [mbind result_bind].
    destruct (numbers !! (i + 1)) as [b|]; cbn [mbind result_bind]; [|apply returns_Ok].
    destruct (parse_float_returns (Some b) fzero) as [y ->]. cbn [mbind result_bind].
    apply IH.
Qed.

Lemma parse_points_returns points_str : returns (_parse_points points_str).
Proof.
  unfold _parse_points. apply returns_bind.
  - apply mapM_returns, findall_Forall, parse_pair_returns.
  - intros points. case_bool_decide; [apply points_of_numbers_returns|apply returns_Ok].
Qed.

(** *** What the path interpreter raises *)

Lemma path_step_raises token next st e :
  path_step token next st = Raise e →
  e = ValueError "Path data missing command".
Proof.
  unfold path_step. destruct (is_letter token); [done|].
  destruct (command st) as [c|]; [|by intros [= <-]].
  repeat (case_match; [destruct next; repeat bind_float; done|]). done.
Qed.

Lemma parse_path_loop_raises tokens st e :
  _parse_path_loop tokens st = Raise e →
  e = ValueError "Path data missing command".
Proof.
  revert st. induction tokens as [|token rest IH1 IH2] using tokens_ind;
    intros st; [done|].
  rewrite loop_unfold.
  destruct (path_step token (head rest) st) as [[st' two]|e'] eqn:Hs.
  - destruct two; [apply IH2|apply IH1].
  - intros [= <-]. by eapply path_step_raises.
Qed.

End Extractors.

(* ===================================================================== *)
(** * What an extractor can raise *)
(* ===================================================================== *)

Import Py Re Models ET Parser Numeral Properties Examples StringFacts NumeralFacts FloatFacts ParseFloatFacts PathFacts StyleClaims Totality Extractors.

Module ExtractorFacts.

Tactic Notation "returns_in" hyp(H) uconstr(lem) :=
  match type of H with
  | context [mbind _ ?m] =>
      let a := fresh "a" in
      let E := fresh "E" in
      destruct (lem : returns m) as [a E]; rewrite E in H;
      cbn [mbind result_bind] in H
  end.

(** The style resolver converts the fill, the stroke, the stroke width and
    the opacity, in this order; the first conversion that raises decides. *)
Lemma extract_style_raises element base_style exc :
  _extract_style element base_style = Raise exc →
  opacity_failure element exc ∨ colour_failure element exc.
Proof.
  intros H. unfold _extract_style in H.
  destruct (merge_style_returns element) as [inline Hin].
  rewrite Hin in H. cbn [mbind result_bind] in H.
  destruct (_parse_color (get element "fill" (inline !! "fill"))) as [fc|e] eqn:Hfc;
    cbn [mbind result_bind] in H.
  2:{ injection H as ->. right. exists inline, "fill". split; [done|].
      split; [set_solver|done]. }
  destruct (_parse_color (get element "stroke" (inline !! "stroke"))) as [sc|e] eqn:Hsc;
    cbn [mbind result_bind] in H.
  2:{ injection H as ->. right. exists inline, "stroke". split; [done|].
      split; [set_solver|done]. }
  returns_in H (parse_float_returns _ _).
  left. exists inline.
  destruct (get element "opacity" (inline !! "opacity")) as [o|]; [|done].
  exists o. split; [done|]. split; [done|].
  destruct (float_of_str o) as [f|e]; cbn [mbind result_bind] in H; [done|].
  by injection H as ->.
Qed.

Lemma extract_text_style_raises element exc :
  _extract_text_style element = Raise exc →
  opacity_failure element exc ∨ colour_failure element exc.
Proof.
  intros H. unfold _extract_text_style in H.
  destruct (merge_style_returns element) as [inline Hin].
  rewrite Hin in H. cbn [mbind result_bind] in H.
  destruct (_extract_style element _) as [st|e] eqn:Hst.
  - cbn [mbind result_bind] in H.
    destruct (get element "font-size" (inline !! "font-size")) as [v|]; [|done].
    destruct (truthy v); [|done].
    destruct (parse_float_returns (Some v) fzero) as [x Hx]. by rewrite Hx in H.
  - injection H as ->. by eapply extract_style_raises.
Qed.

Lemma attr_float_returns element key : returns (attr_float element key).
Proof. apply parse_float_returns. Qed.

Ltac style_first H :=
  match type of H with
  | context [_extract_style ?el ?b] =>
      let st := fresh "st" in
      let Hst := fresh "Hst" in
      destruct (_extract_style el b) as [st|?] eqn:Hst;
      cbn [mbind result_bind] in H;
      [|injection H as ->;
        destruct (extract_style_raises _ _ _ Hst) as [?|?]; [by left|by right; right]]
  end.

Lemma shape_parsers_lookup tag parser :
  _SHAPE_PARSERS !! tag = Some parser →
  (tag, parser) ∈
    [ ("rect", _parse_rect); ("circle", _parse_circle);
      ("ellipse", _parse_ellipse); ("line", _parse_line);
      ("polyline", λ el, _parse_polyline el false);
      ("polygon", λ el, _parse_polyline el true);
      ("path", _parse_path_element); ("text", _parse_text) ].
Proof.
  unfold _SHAPE_PARSERS. intros H. by apply elem_of_list_to_map_2 in H.
Qed.

Ltac parser_cases H :=
  apply shape_parsers_lookup in H;
  repeat (apply elem_of_cons in H as [[= -> ->]|H]);
  [..|by apply elem_of_nil in H].

Lemma shape_parser_raises tag parser element exc :
  local_tag element = tag →
  _SHAPE_PARSERS !! tag = Some parser → parser element = Raise exc →
  opacity_failure element exc ∨ path_failure element exc
  ∨ colour_failure element exc.
Proof.
  intros Htag Hp H. parser_cases Hp.
  - unfold _parse_rect in H. style_first H.
    repeat returns_in H (attr_float_returns _ _). done.
  - unfold _parse_circle in H. style_first H.
    repeat returns_in H (attr_float_returns _ _). done.
  - unfold _parse_ellipse in H. style_first H.
    repeat returns_in H (attr_float_returns _ _). done.
  - unfold _parse_line in H. style_first H.
    repeat returns_in H (attr_float_returns _ _). done.
  - unfold _parse_polyline in H. style_first H.
    returns_in H (parse_points_returns _). done.
  - unfold _parse_polyline in H. style_first H.
    returns_in H (parse_points_returns _). done.
  - unfold _parse_path_element in H. style_first H.
    destruct (_parse_path _) as [segs|e] eqn:Hpath; [done|].
    injection H as ->. right. left. split; [done|]. split; [done|].
    by eapply parse_path_loop_raises.
  - unfold _parse_text in H.
    destruct (_extract_text_style element) as [ts|e] eqn:Hts;
      cbn [mbind result_bind] in H.
    + repeat returns_in H (attr_float_returns _ _). done.
    + injection H as ->.
      destruct (extract_text_style_raises _ _ Hts) as [?|?]; [by left|by right; right].
Qed.

Lemma shape_parser_type tag parser element shape :
  _SHAPE_PARSERS !! tag = Some parser → parser element = Ok shape →
  ShapeType_value (shape_type shape) = tag.
Proof.
  intros Hp H. parser_cases Hp;
    [unfold _parse_rect in H | unfold _parse_circle in H
    |unfold _parse_ellipse in H | unfold _parse_line in H
    |unfold _parse_polyline in H | unfold _parse_polyline in H
    |unfold _parse_path_element in H | unfold _parse_text in H];
    repeat (apply bind_Ok in H as (? & _ & H)); by injection H as <-.
Qed.

End ExtractorFacts.

(* ===================================================================== *)
(** * Documents: claims C7 and C1 *)
(* ===================================================================== *)

Import Py Re Models ET Parser Numeral Properties Examples StringFacts NumeralFacts FloatFacts ParseFloatFacts PathFacts StyleClaims Totality Extractors ExtractorFacts.

Module DocumentClaims.

Lemma parse_elements_raises elements acc e :
  parse_elements elements acc = Raise e →
  ∃ element exc,
    element ∈ elements ∧ recognised element ∧
    e = wrap_error (local_tag element) exc ∧
    (opacity_failure element exc ∨ path_failure element exc
     ∨ colour_failure element exc).
Proof.
  revert acc. induction elements as [|element rest IH]; intros acc; simpl; [done|].
  destruct (_SHAPE_PARSERS !! local_tag element) as [parser|] eqn:Hp.
  - destruct (parser element) as [shape|exc] eqn:Hs.
    + intros (el & exc & Hin & ?)%IH. exists el, exc. split; [by right|done].
    + intros [= <-]. exists element, exc. split; [by left|].
      split; [by eexists|]. split; [done|]. by eapply shape_parser_raises.
  - intros (el & exc & Hin & ?)%IH. exists el, exc. split; [by right|done].
Qed.

Lemma parse_elements_order elements acc shapes :
  parse_elements elements acc = Ok shapes →
  ∃ new, shapes = acc ++ new ∧ Forall2 parsed_by (filter recognised elements) new.
Proof.
  revert acc. induction elements as [|element rest IH]; intros acc; simpl.
  - intros [= <-]. exists []. by rewrite app_nil_r.
  - destruct (_SHAPE_PARSERS !! local_tag element) as [parser|] eqn:Hp.
    + destruct (parser element) as [shape|exc] eqn:Hs; [|done].
      intros (new & -> & Hnew)%IH. exists (shape :: new).
      split; [by rewrite <- app_assoc|].
      rewrite filter_cons_True by by eexists.
      constructor; [by exists parser|done].
    + intros (new & -> & Hnew)%IH. exists new. split; [done|].
      rewrite filter_cons_False; [done|]. unfold recognised. rewrite Hp. by intros [? ?].
Qed.

Lemma parsed_by_types elements shapes :
  Forall2 parsed_by elements shapes →
  ShapeType_value ∘ shape_type <$> shapes = local_tag <$> elements.
Proof.
  induction 1 as [|el sh els shs (parser & Hp & Hs) _ IH]; [done|].
  rewrite !fmap_cons, IH. f_equal. by eapply shape_parser_type.
Qed.

Lemma canvas_length_returns root key : returns (canvas_length root key).
Proof.
  unfold canvas_length. destruct (get root key None) as [v|]; [|apply returns_Ok].
  destruct (truthy v); [|apply returns_Ok].
  apply returns_fmap, parse_float_returns.
Qed.

(** Claim C7.  The shapes of the document that [parse_svg] returns are,
    in this order, what the extractors return on the recognised elements
    of [root.iter()], the depth-first document order; so their types are
    the tags of those elements in that order.  A source with a rect, a
    circle (inside a group) and a path gives the shapes in that order. *)
Theorem document_order :
  (∀ root doc,
     parse_svg root = Ok doc →
     Forall2 parsed_by (filter recognised (iter root)) (shapes doc) ∧
     ShapeType_value ∘ shape_type <$> shapes doc
     = local_tag <$> filter recognised (iter root))
  ∧ (λ doc, shape_type <$> shapes doc) <$> parse_svg order_example
    = Ok [RECT; CIRCLE; PATH].
Proof.
  split; [|vm_compute; reflexivity].
  intros root doc H. unfold parse_svg in H.
  apply bind_Ok in H as (w & _ & H). apply bind_Ok in H as (h & _ & H).
  apply bind_Ok in H as (shapes & Hs & H). injection H as <-.
  apply parse_elements_order in Hs as (new & -> & Hnew). simpl.
  split; [done|]. by apply parsed_by_types.
Qed.

(** The example document. *)
Lemma document_order_witness :
  ∃ doc,
    parse_svg order_example = Ok doc ∧
    ShapeType_value ∘ shape_type <$> shapes doc = ["rect"; "circle"; "path"].
Proof.
  destruct (parse_svg order_example) as [doc|e] eqn:E; [|discriminate E].
  exists doc. split; [reflexivity|].
  exact (proj2 (proj1 document_order order_example doc E)).
Defined.

(** What can fail in a conversion.  [_parse_float] returns for every
    input.  [_parse_color] raises on one kind of text only: an [rgb] form
    with exactly three runs of digits of which one has more digits than
    [int] accepts, and the error is that of [int] on the first such run.
    When [parse_svg] fails, either reading the file has failed, and the
    error is that of the reading, as it is; or the file has been read and
    the failure is at an element that [parse_svg] recognises, with the
    single wrapped error naming that element's tag, and no document.
    What failed below it is then the conversion of the element's opacity
    by [float] or of its fill or stroke colour by [_parse_color] in the
    style resolver, or the path interpreter on the [d] of a [path]
    element, with "Path data missing command". *)
Theorem failure_causes :
  (∀ value default_, returns (_parse_float value default_)) ∧
  (∀ value e,
     _parse_color value = Raise e →
     ∃ v d,
       value = Some v ∧ oversized_rgb v = true ∧
       find oversized (findall digits_at (strip v)) = Some d ∧
       e = ValueError (int_limit_message (String.length d))) ∧
  (∀ parse svg_file e,
     parse_svg_file parse svg_file = Raise e →
     parse svg_file = Raise e ∨
     ∃ root element exc,
       parse svg_file = Ok root ∧
       element ∈ iter root ∧ recognised element ∧
       e = wrap_error (local_tag element) exc ∧
       (opacity_failure element exc ∨ path_failure element exc
        ∨ colour_failure element exc)).
Proof.
  split; [apply parse_float_returns|]. split; [apply parse_color_raises|].
  intros parse svg_file e H. unfold parse_svg_file in H.
  destruct (parse svg_file) as [root|e'] eqn:Hroot; cbn [mbind result_bind] in H;
    [right|left; by injection H as ->].
  unfold parse_svg in H.
  returns_in H (canvas_length_returns _ _).
  returns_in H (canvas_length_returns _ _).
  destruct (parse_elements (iter root) []) as [shapes|e'] eqn:Hs; [done|].
  injection H as ->.
  apply parse_elements_raises in Hs as (element & exc & ?). by exists root, element, exc.
Qed.

(** The documents [<svg><rect opacity="50%"/></svg>] and
    [<svg><rect fill="rgb(1...1,0,0)"/></svg>] with 4301 digits, each read
    from a file; and a file that cannot be read. *)
Lemma failure_causes_example :
  ((λ _, Ok opacity_example) "drawing.svg"
   = Raise (ValueError
       "Unable to parse element 'rect': could not convert string to float: '50%'")
   ∨ ∃ root element exc,
       (λ _, Ok opacity_example) "drawing.svg" = Ok root ∧
       element ∈ iter root ∧ recognised element ∧
       ValueError "Unable to parse element 'rect': could not convert string to float: '50%'"
       = wrap_error (local_tag element) exc ∧
       (opacity_failure element exc ∨ path_failure element exc
        ∨ colour_failure element exc))
  ∧ ((λ _, Ok oversized_example) "drawing.svg"
     = Raise (wrap_error "rect" (ValueError (int_limit_message 4301)))
     ∨ ∃ root element exc,
         (λ _, Ok oversized_example) "drawing.svg" = Ok root ∧
         element ∈ iter root ∧ recognised element ∧
         wrap_error "rect" (ValueError (int_limit_message 4301))
         = wrap_error (local_tag element) exc ∧
         (opacity_failure element exc ∨ path_failure element exc
          ∨ colour_failure element exc))
  ∧ parse_svg_file
      (λ _, Raise (OtherError "FileNotFoundError"
                     "[Errno 2] No such file or directory: 'missing.svg'"))
      "missing.svg"
    = Raise (OtherError "FileNotFoundError"
               "[Errno 2] No such file or directory: 'missing.svg'").
Proof.
  split; [|split].
  - apply (proj2 (proj2 failure_causes) (λ _, Ok opacity_example) "drawing.svg").
    reflexivity.
  - apply (proj2 (proj2 failure_causes) (λ _, Ok oversized_example) "drawing.svg").
    vm_compute. reflexivity.
  - reflexivity.
Defined.

(** Claim C1, on the code.  On an element with [opacity="50%"] the style
    resolver raises: the opacity goes through a bare [float], where the
    stroke width next to it goes through [_parse_float] and falls back
    to its default on a text such as ["thick"].  So [parse_svg] fails on
    a document without any path element, and not every failure of a
    conversion comes from the path interpreter. *)
Theorem opacity_conversion_raises :
  _extract_style (leaf "rect" {[ "opacity" := "50%" ]}) None
  = Raise (ValueError "could not convert string to float: '50%'")
  ∧ parse_svg opacity_example
    = Raise (ValueError
        "Unable to parse element 'rect': could not convert string to float: '50%'")
  ∧ stroke_width <$> _extract_style (leaf "rect" {[ "stroke-width" := "thick" ]}) None
    = Ok (Finite 1)
  ∧ ¬ (∀ root e,
         parse_svg root = Raise e →
         ∃ element exc, element ∈ iter root ∧ path_failure element exc).
Proof.
  split; [reflexivity|]. split; [reflexivity|]. split; [reflexivity|].
  intros H. destruct (H opacity_example _ eq_refl) as (el & exc & Hin & Htag & _).
  simpl in Hin.
  repeat (apply elem_of_cons in Hin as [->|Hin]; [discriminate Htag|]).
  by apply elem_of_nil in Hin.
Qed.

End DocumentClaims.

(* ===================================================================== *)
(** * Lengths: blanks and the unit table *)
(* ===================================================================== *)

Import Py Re Models ET Parser Numeral Properties Examples StringFacts NumeralFacts FloatFacts ParseFloatFacts Extractors.

Module StripFacts.

Lemma rev_app_append a b acc :
  String.rev_app (a +:+ b) acc = String.rev_app b (String.rev_app a acc).
Proof.
  revert acc. induction a as [|c a IH]; intros acc; [done|].
  rewrite sapp_cons. simpl. apply IH.
Qed.

Lemma rev_append a b : String.rev (a +:+ b) = String.rev b +:+ String.rev a.
Proof. unfold String.rev. rewrite rev_app_append. apply rev_app_app. Qed.

Lemma lstrip_blank s : all isspace s = true → lstrip s = EmptyString.
Proof.
  induction s as [|c s IH]; [done|]. simpl.
  intros [-> Hs]%andb_prop. auto.
Qed.

Lemma lstrip_app_blank a s : all isspace a = true → lstrip (a +:+ s) = lstrip s.
Proof.
  induction a as [|c a IH]; [done|]. simpl.
  intros [Hc Ha]%andb_prop. rewrite Hc. auto.
Qed.

Lemma lstrip_spec s :
  ∃ a, s = a +:+ lstrip s ∧ all isspace a = true ∧ first_fails isspace (lstrip s).
Proof.
  induction s as [|c s (a & Hs & Ha & Hf)]; [by exists EmptyString|].
  simpl. destruct (isspace c) eqn:Hc.
  - exists (String c a). rewrite sapp_cons, <- Hs. simpl. by rewrite Hc, Ha.
  - by exists EmptyString.
Qed.

Lemma lstrip_app_nonblank s b :
  lstrip s ≠ EmptyString → lstrip (s +:+ b) = lstrip s +:+ b.
Proof.
  induction s as [|c s IH]; [done|]. simpl.
  destruct (isspace c); [auto|done].
Qed.

Lemma rstrip_spec s :
  ∃ b, s = rstrip s +:+ b ∧ all isspace b = true
       ∧ first_fails isspace (String.rev (rstrip s)).
Proof.
  unfold rstrip. destruct (lstrip_spec (String.rev s)) as (a & Hs & Ha & Hf).
  exists (String.rev a). split; [|split].
  - rewrite <- rev_append, <- Hs. by rewrite rev_involutive.
  - by rewrite all_rev.
  - by rewrite rev_involutive.
Qed.

Lemma rstrip_app_blank s b : all isspace b = true → rstrip (s +:+ b) = rstrip s.
Proof.
  intros Hb. unfold rstrip. rewrite rev_append, lstrip_app_blank; [done|].
  by rewrite all_rev.
Qed.

Lemma strip_blank s : all isspace s = true → strip s = EmptyString.
Proof. intros H. unfold strip. by rewrite lstrip_blank. Qed.

Lemma strip_pad a s b :
  all isspace a = true → all isspace b = true →
  strip (a +:+ s +:+ b) = strip s.
Proof.
  intros Ha Hb. unfold strip. rewrite lstrip_app_blank by done.
  destruct (lstrip s) as [|c t] eqn:E.
  - destruct (lstrip_spec s) as (a' & Hs & Ha' & _). rewrite E, sapp_nil_r in Hs.
    subst a'. rewrite lstrip_blank; [done|]. by rewrite all_app, Ha', Hb.
  - rewrite lstrip_app_nonblank by by rewrite E. rewrite E.
    by apply rstrip_app_blank.
Qed.

(** The ends of a stripped text are not blank. *)
Lemma strip_ends s :
  first_fails isspace (strip s) ∧ first_fails isspace (String.rev (strip s)).
Proof.
  unfold strip. destruct (lstrip_spec s) as (a & _ & _ & Hf).
  destruct (rstrip_spec (lstrip s)) as (b & Hs & Hb & Hr).
  split; [|done]. rewrite Hs in Hf.
  destruct (rstrip (lstrip s)); [done|]. by rewrite sapp_cons in Hf.
Qed.

Lemma strip_fixed s :
  first_fails isspace s → first_fails isspace (String.rev s) → strip s = s.
Proof.
  intros H1 H2. unfold strip, rstrip.
  rewrite (lstrip_id s H1), (lstrip_id _ H2). apply rev_involutive.
Qed.

Lemma strip_idem s : strip (strip s) = strip s.
Proof. destruct (strip_ends s). by apply strip_fixed. Qed.

End StripFacts.

Import StripFacts.

Module LengthExtras.

Lemma all_lower p s : all p (lower s) = all (λ c, p (lower_char c)) s.
Proof. induction s as [|c s IH]; [done|]. simpl. by rewrite IH. Qed.

Lemma unit_char_lower c : unit_char (lower_char c) = true → unit_char c = true.
Proof. by_chars c. Qed.

Lemma lower_unit_chars u : all unit_char (lower u) = true → all unit_char u = true.
Proof. rewrite all_lower. apply all_impl, unit_char_lower. Qed.

(** Absent, empty and blank texts give the default. *)
Theorem parse_float_blank default_ :
  _parse_float None default_ = Ok default_ ∧
  ∀ s, all isspace s = true → _parse_float (Some s) default_ = Ok default_.
Proof.
  split; [done|]. intros s Hs. unfold _parse_float. by rewrite strip_blank.
Qed.

Lemma parse_float_blank_witness :
  _parse_float (Some "   ") (Finite 7) = Ok (Finite 7).
Proof.
  apply (proj2 (parse_float_blank (Finite 7))). reflexivity.
Defined.

(** Blanks around a length do not count. *)
Theorem parse_float_padding a s b default_ :
  all isspace a = true → all isspace b = true →
  _parse_float (Some (a +:+ s +:+ b)) default_ = _parse_float (Some s) default_.
Proof. intros Ha Hb. unfold _parse_float. by rewrite strip_pad. Qed.

Lemma parse_float_padding_witness :
  _parse_float (Some "  12pt ") fzero = _parse_float (Some "12pt") fzero.
Proof.
  apply (parse_float_padding "  " "12pt" " " fzero); reflexivity.
Defined.

(** The conversion table, for a unit in any letter case. *)
Theorem parse_float_units n u default_ :
  wf n →
  let result := _parse_float (Some (render n +:+ u)) default_ in
  (lower u ∈ [EmptyString; "px"; "%"] → result = Ok (Finite (value n))) ∧
  (lower u = "pt" → result = Ok (Finite (value n * 1.3333))) ∧
  (lower u = "cm" → result = Ok (Finite (value n * 37.7953))) ∧
  (lower u = "mm" → result = Ok (Finite (value n * 3.77953))) ∧
  (lower u = "in" → result = Ok (Finite (value n * 96))).
Proof.
  intros Hn result.
  assert (∀ U, lower u = U → all unit_char U = true →
            result = Ok (convert U (Finite (value n)))) as H.
  { intros U <- HU. unfold result.
    by rewrite parse_float_numeral by auto using lower_unit_chars. }
  repeat split.
  - intros Hu. repeat (apply elem_of_cons in Hu as [Hu|Hu]; [by rewrite (H _ Hu)|]).
    by apply elem_of_nil in Hu.
  - intros Hu. by rewrite (H _ Hu).
  - intros Hu. by rewrite (H _ Hu).
  - intros Hu. by rewrite (H _ Hu).
  - intros Hu. by rewrite (H _ Hu).
Qed.

Lemma parse_float_units_witness :
  _parse_float (Some "2.5CM") fzero = Ok (Finite (2.5 * 37.7953)).
Proof.
  apply (parse_float_units (mkNumeral false "2" (Some "5")) "CM" fzero).
  - repeat split; (reflexivity || discriminate).
  - reflexivity.
Defined.

End LengthExtras.

(* ===================================================================== *)
(** * Colours *)
(* ===================================================================== *)

Import Py Re Models ET Parser Numeral Properties Examples StringFacts NumeralFacts FloatFacts ParseFloatFacts Totality Extractors StripFacts Chars.

Module FindFacts.

Lemma finditer_skip match_at a b :
  finditer_from match_at (String.length a) (a +:+ b) = finditer_from match_at 0 b.
Proof.
  induction a as [|c a IH]; [by destruct b|]. rewrite sapp_cons. simpl. apply IH.
Qed.

Lemma finditer_match match_at t b :
  match_at (t +:+ b) = Some t → t ≠ EmptyString →
  finditer_from match_at 0 (t +:+ b) = t :: finditer_from match_at 0 b.
Proof.
  intros Hm Ht. destruct t as [|c t]; [done|].
  rewrite sapp_cons in *. simpl. rewrite Hm. simpl.
  by rewrite Nat.sub_0_r, finditer_skip.
Qed.

(** A run of characters at which the pattern cannot start. *)
Lemma finditer_pass match_at (p : ascii → bool) a b :
  (∀ c r, p c = true → match_at (String c r) = None) →
  all p a = true →
  finditer_from match_at 0 (a +:+ b) = finditer_from match_at 0 b.
Proof.
  intros Hp. induction a as [|c a IH]; [done|]. simpl.
  intros [Hc Ha]%andb_prop. by rewrite (Hp _ _ Hc), IH.
Qed.

Lemma digits_at_nondigit c r : nondigit c = true → digits_at (String c r) = None.
Proof.
  unfold nondigit, digits_at. intros H%negb_true_iff. simpl. by rewrite H.
Qed.

Lemma digits_at_run d b :
  digit_string d → first_fails isdigit b → digits_at (d +:+ b) = Some d.
Proof.
  intros [Hd Hne] Hb. unfold digits_at. rewrite span_app by done. by destruct d.
Qed.

Lemma findall_digits_run d b :
  digit_string d → first_fails isdigit b →
  finditer_from digits_at 0 (d +:+ b) = d :: finditer_from digits_at 0 b.
Proof.
  intros Hd Hb. apply finditer_match; [by apply digits_at_run|apply Hd].
Qed.

Lemma findall_digits_pass a b :
  all nondigit a = true →
  finditer_from digits_at 0 (a +:+ b) = finditer_from digits_at 0 b.
Proof. apply finditer_pass, digits_at_nondigit. Qed.

End FindFacts.

Import FindFacts.

Module ColorExtras.

Lemma color_name_lookup_hash h : _COLOR_NAMES !! String "#" h = None.
Proof.
  unfold _COLOR_NAMES. apply not_elem_of_list_to_map_1. simpl.
  intros H. repeat (apply elem_of_cons in H as [H|H]; [discriminate H|]).
  by apply elem_of_nil in H.
Qed.

(** The named colours, in any letter case and between blanks. *)
Theorem parse_color_names s name hex :
  (name, hex) ∈
    [ ("black", "#000000"); ("white", "#ffffff"); ("red", "#ff0000");
      ("green", "#008000"); ("blue", "#0000ff"); ("yellow", "#ffff00");
      ("cyan", "#00ffff"); ("magenta", "#ff00ff") ] →
  lower (strip s) = name →
  _parse_color (Some s) = Ok (Some hex).
Proof.
  intros Hin Hs. unfold _parse_color.
  destruct (strip s) as [|c r] eqn:E.
  { subst name. simpl in Hin.
    repeat (apply elem_of_cons in Hin as [Hin|Hin]; [discriminate Hin|]).
    by apply elem_of_nil in Hin. }
  rewrite Hs.
  repeat (apply elem_of_cons in Hin as [[= -> ->]|Hin]; [reflexivity|]).
  by apply elem_of_nil in Hin.
Qed.

Lemma parse_color_names_witness :
  _parse_color (Some " GrEEn ") = Ok (Some "#008000").
Proof.
  apply (parse_color_names " GrEEn " "green" "#008000"); [set_solver|reflexivity].
Defined.

(** A text of seven characters that starts with [#] is lowercased and
    returned; what follows the [#] is not examined. *)
Theorem parse_color_hash s h :
  strip s = String "#" h → String.length h = 6 →
  _parse_color (Some s) = Ok (Some (lower (strip s))).
Proof.
  intros Hs Hlen. unfold _parse_color. rewrite Hs.
  cbn [truthy negb lower]. change (lower_char "#") with "#"%char.
  rewrite color_name_lookup_hash. cbn [default].
  cbn [lower]. change (lower_char "#") with "#"%char.
  replace (String.eqb (String "#" (lower h)) "none") with false by done.
  unfold startswith. cbn [String.prefix String.length]. rewrite Hlen.
  destruct (ascii_dec "#" "#") as [_|Hne]; [|done]. by destruct h.
Qed.

Lemma parse_color_hash_witness :
  _parse_color (Some " #Cafe!? ") = Ok (Some "#cafe!?").
Proof.
  apply (parse_color_hash " #Cafe!? " "Cafe!?"); reflexivity.
Defined.

Lemma digits_nonspace d : digit_string d → all nonspace d = true.
Proof. intros [Hd _]. revert Hd. apply all_impl, digit_nonspace. Qed.

Lemma digits_nondigit_free d : digit_string d → lower d = d.
Proof.
  intros [Hd _]. induction d as [|c d IH]; [done|]. simpl in *.
  apply andb_prop in Hd as [Hc Hd]. rewrite IH by done. f_equal.
  revert Hc. clear. by_chars c.
Qed.

Lemma findall_digits_rgb d1 d2 d3 :
  digit_string d1 → digit_string d2 → digit_string d3 →
  findall digits_at ("rgb(" +:+ d1 +:+ "," +:+ d2 +:+ "," +:+ d3 +:+ ")")
  = [d1; d2; d3].
Proof.
  intros H1 H2 H3. unfold findall.
  rewrite (findall_digits_pass "rgb(") by done.
  rewrite findall_digits_run by done.
  rewrite (findall_digits_pass ",") by done.
  rewrite findall_digits_run by done.
  rewrite (findall_digits_pass ",") by done.
  rewrite findall_digits_run by done.
  by rewrite <- (sapp_nil_r ")"), (findall_digits_pass ")") by done.
Qed.

Lemma rgb_three_runs d1 d2 d3 :
  digit_string d1 → digit_string d2 → digit_string d3 →
  _parse_color (Some ("rgb(" +:+ d1 +:+ "," +:+ d2 +:+ "," +:+ d3 +:+ ")"))
  = match find oversized [d1; d2; d3] with
    | Some d => Raise (ValueError (int_limit_message (String.length d)))
    | None =>
        Ok (Some ("#" +:+ format_02x (Z.of_N (digits_value d1))
                      +:+ format_02x (Z.of_N (digits_value d2))
                      +:+ format_02x (Z.of_N (digits_value d3))))
    end.
Proof.
  intros H1 H2 H3.
  assert (strip ("rgb(" +:+ d1 +:+ "," +:+ d2 +:+ "," +:+ d3 +:+ ")")
          = "rgb(" +:+ d1 +:+ "," +:+ d2 +:+ "," +:+ d3 +:+ ")") as Hstrip.
  { apply strip_id.
    rewrite !all_app, (digits_nonspace d1), (digits_nonspace d2),
      (digits_nonspace d3) by done. reflexivity. }
  rewrite rgb_branch by (rewrite Hstrip; reflexivity).
  rewrite Hstrip, findall_digits_rgb by done. cbv zeta.
  change (length [d1; d2; d3] =? 3)%nat with true. cbv iota.
  rewrite mapM_int_runs by (repeat (constructor; [assumption|]); constructor).
  by destruct (find oversized [d1; d2; d3]).
Qed.

(** [rgb(r,g,b)] with three runs of digits.  When each run has at most
    4300 digits, each is written in hexadecimal on at least two
    characters, and nothing is clamped.  Otherwise [int] refuses the first
    run that has more, and [_parse_color] raises its error. *)
Theorem parse_color_rgb d1 d2 d3 :
  digit_string d1 → digit_string d2 → digit_string d3 →
  let result :=
    _parse_color (Some ("rgb(" +:+ d1 +:+ "," +:+ d2 +:+ "," +:+ d3 +:+ ")")) in
  (oversized d1 = false → oversized d2 = false → oversized d3 = false →
   result = Ok (Some ("#" +:+ format_02x (Z.of_N (digits_value d1))
                          +:+ format_02x (Z.of_N (digits_value d2))
                          +:+ format_02x (Z.of_N (digits_value d3)))))
  ∧ (oversized d1 = true →
     result = Raise (ValueError (int_limit_message (String.length d1))))
  ∧ (oversized d1 = false → oversized d2 = true →
     result = Raise (ValueError (int_limit_message (String.length d2))))
  ∧ (oversized d1 = false → oversized d2 = false → oversized d3 = true →
     result = Raise (ValueError (int_limit_message (String.length d3)))).
Proof.
  intros H1 H2 H3 result. unfold result.
  rewrite rgb_three_runs by done. cbn [find].
  repeat split.
  - by intros -> -> ->.
  - by intros ->.
  - by intros -> ->.
  - by intros -> -> ->.
Qed.

Lemma parse_color_rgb_witness :
  _parse_color (Some "rgb(300,16,7)") = Ok (Some "#12c1007")
  ∧ _parse_color (Some ("rgb(255," +:+ digits_4301 +:+ ",0)"))
    = Raise (ValueError (int_limit_message 4301)).
Proof.
  split.
  - apply (parse_color_rgb "300" "16" "7");
      solve [split; (reflexivity || discriminate) | reflexivity].
  - apply (parse_color_rgb "255" digits_4301 "0");
      solve [split; (vm_compute; reflexivity) || discriminate | vm_compute; reflexivity].
Defined.

End ColorExtras.

(* ===================================================================== *)
(** * Style blocks *)
(* ===================================================================== *)

Import Py Re Models ET Parser Numeral Properties Examples StringFacts NumeralFacts FloatFacts ParseFloatFacts StyleClaims Totality Extractors ExtractorFacts StripFacts Chars FindFacts.

Module SplitFacts.

Lemma sapp_char c x : String c EmptyString +:+ x = String c x.
Proof. reflexivity. Qed.

Lemma split_go_app sep cur a b :
  split_go sep cur (a +:+ String sep b)
  = split_go sep cur a ++ split_go sep EmptyString b.
Proof.
  revert cur. induction a as [|c a IH]; intros cur.
  - simpl. by rewrite Ascii.eqb_refl.
  - rewrite sapp_cons. simpl. destruct (Ascii.eqb c sep); [|apply IH].
    by rewrite IH.
Qed.

Lemma split_app sep a b :
  split sep (a +:+ String sep b) = split sep a ++ split sep b.
Proof. apply split_go_app. Qed.

Lemma split_plain sep a : all (differs sep) a = true → split sep a = [a].
Proof. intros H. unfold split. by rewrite split_go_plain. Qed.

Lemma contains_differs sep s : all (differs sep) s = true → contains sep s = false.
Proof.
  induction s as [|c s IH]; [done|]. simpl. unfold differs at 1.
  intros [Hc Hs]%andb_prop. apply negb_true_iff in Hc.
  rewrite Ascii.eqb_sym, Hc. auto.
Qed.

Lemma contains_app_sep sep a b : contains sep (a +:+ String sep b) = true.
Proof.
  induction a as [|c a IH]; simpl.
  - by rewrite Ascii.eqb_refl.
  - rewrite IH. by destruct (Ascii.eqb sep c).
Qed.

Lemma split1_go_first sep cur a b :
  all (differs sep) a = true →
  split1_go sep cur (a +:+ String sep b) = [String.rev cur +:+ a; b].
Proof.
  revert cur. induction a as [|c a IH]; intros cur.
  - intros _. simpl. by rewrite Ascii.eqb_refl, sapp_nil_r.
  - intros Ha. simpl in Ha. apply andb_prop in Ha as [Hc Ha]. unfold differs in Hc.
    apply negb_true_iff in Hc. rewrite sapp_cons. simpl. rewrite Hc, IH by done.
    by rewrite rev_cons, sapp_assoc.
Qed.

Lemma split1_first sep a b :
  all (differs sep) a = true → split1 sep (a +:+ String sep b) = [a; b].
Proof. intros Ha. unfold split1. by rewrite split1_go_first. Qed.

End SplitFacts.

Import SplitFacts.

Module StyleExtras.

Lemma merge_declarations_app style l1 l2 :
  merge_declarations style (l1 ++ l2)
  = merge_declarations style l1 ≫= λ m, merge_declarations m l2.
Proof.
  revert style. induction l1 as [|d l1 IH]; intros style; [done|].
  cbn [merge_declarations app].
  destruct (merge_declaration style d) as [m|e]; cbn [mbind result_bind]; [apply IH|done].
Qed.

Lemma merge_declaration_pair style k v :
  all (differs ":") k = true →
  merge_declaration style (k +:+ String ":" v) = Ok (<[strip k := strip v]> style).
Proof.
  intros Hk. unfold merge_declaration.
  by rewrite contains_app_sep, split1_first.
Qed.

Lemma merge_declaration_plain style decl :
  all (differs ":") decl = true → merge_declaration style decl = Ok style.
Proof. intros H. unfold merge_declaration. by rewrite contains_differs. Qed.

(** The last declaration of a style block: its key is what precedes the
    first colon, its value what follows; both are stripped, and the value
    replaces any earlier one for that key. *)
Theorem merge_style_last_declaration element before k v :
  before = EmptyString ∨ (∃ p, before = p +:+ ";") →
  attrib element !! "style" = Some (before +:+ k +:+ String ":" v) →
  all (differs ";") k = true → all (differs ":") k = true →
  all (differs ";") v = true →
  ∃ m, _merge_style element = Ok m ∧ m !! strip k = Some (strip v).
Proof.
  intros Hbefore Hattr Hk1 Hk2 Hv. unfold _merge_style. rewrite Hattr.
  assert (split ";" (k +:+ String ":" v) = [k +:+ String ":" v]) as Hlast.
  { apply split_plain. rewrite all_app. simpl. by rewrite Hk1, Hv. }
  destruct Hbefore as [->|[p ->]].
  - rewrite sapp_nil_l, Hlast. cbn [merge_declarations].
    rewrite merge_declaration_pair by done. cbn [mbind result_bind].
    eexists. split; [done|]. apply lookup_insert_eq.
  - rewrite sapp_assoc, sapp_char, split_app, Hlast, merge_declarations_app.
    destruct (merge_declarations_returns (split ";" p) ∅) as [m0 ->].
    cbn [mbind result_bind merge_declarations].
    rewrite merge_declaration_pair by done. cbn [mbind result_bind].
    eexists. split; [done|]. apply lookup_insert_eq.
Qed.

Lemma merge_style_last_declaration_witness :
  ∃ m, _merge_style (leaf "rect" {[ "style" := "fill:red; fill : url(x:y) " ]}) = Ok m
       ∧ m !! "fill" = Some "url(x:y)".
Proof.
  apply (merge_style_last_declaration _ "fill:red;" " fill " " url(x:y) ").
  - right. by exists "fill:red".
  - reflexivity.
  - reflexivity.
  - reflexivity.
  - reflexivity.
Defined.

(** A declaration without a colon changes nothing. *)
Theorem merge_style_skips_malformed e1 e2 before junk after :
  attrib e1 !! "style" = Some (before +:+ ";" +:+ junk +:+ ";" +:+ after) →
  attrib e2 !! "style" = Some (before +:+ ";" +:+ after) →
  all (differs ";") junk = true → all (differs ":") junk = true →
  _merge_style e1 = _merge_style e2.
Proof.
  intros H1 H2 Hj1 Hj2. unfold _merge_style. rewrite H1, H2.
  rewrite !sapp_char, !split_app, (split_plain ";" junk) by done.
  rewrite !merge_declarations_app.
  destruct (merge_declarations ∅ (split ";" before)) as [m|e];
    cbn [mbind result_bind]; [|done].
  cbn [merge_declarations app]. by rewrite merge_declaration_plain.
Qed.

Lemma merge_style_skips_malformed_witness :
  _merge_style (leaf "rect" {[ "style" := "fill:red; bold ;stroke:blue" ]})
  = _merge_style (leaf "rect" {[ "style" := "fill:red;stroke:blue" ]}).
Proof.
  apply (merge_style_skips_malformed _ _ "fill:red" " bold " "stroke:blue");
    reflexivity.
Defined.

(** Style resolution returns exactly when neither the fill nor the stroke
    colour is an [rgb] form with a run of digits that [int] refuses, and
    the opacity is absent or a text that [float] accepts; each is taken
    from the attribute or else from the style block.  The stroke width
    never makes it fail. *)
Theorem extract_style_returns_iff element base_style :
  returns (_extract_style element base_style) ↔
  ∃ inline,
    _merge_style element = Ok inline ∧
    (∀ v, get element "fill" (inline !! "fill") = Some v → oversized_rgb v = false) ∧
    (∀ v, get element "stroke" (inline !! "stroke") = Some v →
          oversized_rgb v = false) ∧
    match get element "opacity" (inline !! "opacity") with
    | Some o => returns (float_of_str o)
    | None => True
    end.
Proof.
  split.
  - intros [st H]. unfold _extract_style in H.
    apply bind_Ok in H as (inline & Hin & H).
    apply bind_Ok in H as (fc & Hfc & H). apply bind_Ok in H as (sc & Hsc & H).
    apply bind_Ok in H as (sw & _ & H). apply bind_Ok in H as (op & Hop & _).
    exists inline. split; [done|].
    split; [apply parse_color_returns; by eexists|].
    split; [apply parse_color_returns; by eexists|].
    destruct (get element "opacity" (inline !! "opacity")); [by exists op|done].
  - intros (inline & Hin & Hfill & Hstroke & Hop). unfold _extract_style. rewrite Hin.
    cbn [mbind result_bind].
    apply returns_bind; [by apply parse_color_returns|intros fc].
    apply returns_bind; [by apply parse_color_returns|intros sc].
    apply returns_bind; [apply parse_float_returns|intros sw].
    apply returns_bind; [|intros; apply returns_Ok].
    destruct (get element "opacity" (inline !! "opacity")); [done|apply returns_Ok].
Qed.

End StyleExtras.

(* ===================================================================== *)
(** * Point lists *)
(* ===================================================================== *)

Import Py Re Models ET Parser Numeral Properties Examples StringFacts NumeralFacts FloatFacts ParseFloatFacts StyleClaims Totality Extractors ExtractorFacts StripFacts Chars FindFacts SplitFacts.

Import PointText.

Module PointFacts.

Lemma parse_float_render n default_ :
  wf n → _parse_float (Some (render n)) default_ = Ok (Finite (value n)).
Proof.
  intros Hn. rewrite <- (sapp_nil_r (render n)).
  by rewrite parse_float_numeral.
Qed.

(** The last character of a numeral is a digit. *)
Lemma rev_digits_first d : digit_string d → ∃ c r, String.rev d = String c r ∧ isdigit c = true.
Proof.
  intros [Hd Hne]. assert (all isdigit (String.rev d) = true) as H by by rewrite all_rev.
  destruct (String.rev d) as [|c r] eqn:E.
  - apply (f_equal String.rev) in E. rewrite rev_involutive in E. done.
  - simpl in H. apply andb_prop in H as [? _]. eauto.
Qed.

Lemma rev_render_first n :
  wf n → ∃ c r, String.rev (render n) = String c r ∧ isdigit c = true.
Proof.
  intros [Hip Hfp]. unfold render, unsigned_text.
  assert (∃ x d, digit_string d ∧
            (if negative n then String "-" (int_digits n +:+
               match frac_digits n with Some fp => String "." fp | None => EmptyString end)
             else int_digits n +:+
               match frac_digits n with Some fp => String "." fp | None => EmptyString end)
            = x +:+ d) as (x & d & Hd & ->).
  { destruct (frac_digits n) as [fp|].
    - destruct (negative n).
      + exists (String "-" (int_digits n +:+ ".")), fp. split; [done|].
        by rewrite sapp_cons, sapp_assoc.
      + exists (int_digits n +:+ "."), fp. split; [done|]. by rewrite sapp_assoc.
    - rewrite sapp_nil_r. destruct (negative n).
      + by exists "-", (int_digits n).
      + by exists EmptyString, (int_digits n). }
  rewrite rev_append. destruct (rev_digits_first d Hd) as (c & r & -> & Hc).
  rewrite sapp_cons. eauto.
Qed.

Lemma render_first n :
  wf n → ∃ c r, render n = String c r ∧ nonspace c = true.
Proof.
  intros Hn. pose proof (all_nonspace_render n Hn) as H.
  pose proof (render_nonempty n Hn) as Hne.
  destruct (render n) as [|c r]; [done|]. simpl in H.
  apply andb_prop in H as [? _]. eauto.
Qed.

Lemma nonspace_fails c : nonspace c = true → isspace c = false.
Proof. unfold nonspace. by intros ?%negb_true_iff. Qed.

Lemma pair_text_ends p :
  wf_pair p →
  first_fails isspace (pair_text p) ∧ first_fails isspace (String.rev (pair_text p))
  ∧ pair_text p ≠ EmptyString.
Proof.
  intros [H1 H2]. unfold pair_text.
  destruct (render_first _ H1) as (c & r & -> & Hc).
  destruct (rev_render_first _ H2) as (c' & r' & E & Hc').
  split; [|split].
  - rewrite sapp_cons. simpl. by apply nonspace_fails.
  - rewrite rev_append, rev_append, E, sapp_cons. simpl.
    by apply nonspace_fails, digit_nonspace.
  - by rewrite sapp_cons.
Qed.

Lemma join_cons sep t t' rest :
  join sep (t :: t' :: rest) = t +:+ sep +:+ join sep (t' :: rest).
Proof. reflexivity. Qed.

Lemma join_ends (texts : list string) :
  texts ≠ [] →
  Forall (λ t, first_fails isspace t ∧ first_fails isspace (String.rev t)
               ∧ t ≠ EmptyString) texts →
  first_fails isspace (join " " texts)
  ∧ first_fails isspace (String.rev (join " " texts))
  ∧ join " " texts ≠ EmptyString.
Proof.
  intros Hne H. induction H as [|t rest (Ht1 & Ht2 & Ht3) Hrest IH]; [done|].
  destruct rest as [|t' rest]; [done|].
  destruct IH as (IH1 & IH2 & IH3); [done|].
  rewrite join_cons. split; [|split].
  - destruct t; [done|]. by rewrite sapp_cons.
  - rewrite !rev_append.
    destruct (String.rev (join " " (t' :: rest))) as [|c r] eqn:E.
    + apply (f_equal String.rev) in E. by rewrite rev_involutive in E.
    + by rewrite sapp_cons.
  - destruct t; [done|]. by rewrite sapp_cons.
Qed.

Lemma signed_at_space r : signed_at (String " " r) = None.
Proof. reflexivity. Qed.

Lemma pair_at_text p rest :
  wf_pair p → after_number rest → pair_at (pair_text p +:+ rest) = Some (pair_text p).
Proof.
  intros [H1 H2] Hrest. unfold pair_at, pair_text.
  rewrite !sapp_assoc, sapp_char.
  rewrite signed_at_render; [|done|reflexivity].
  by rewrite signed_at_render.
Qed.

Lemma finditer_pairs_space s :
  finditer_from pair_at 0 (String " " s) = finditer_from pair_at 0 s.
Proof. reflexivity. Qed.

Lemma findall_pairs pts :
  Forall wf_pair pts →
  findall pair_at (join " " (pair_text <$> pts)) = pair_text <$> pts.
Proof.
  unfold findall. induction 1 as [|p rest Hp Hrest IH]; [done|].
  destruct rest as [|p' rest].
  - simpl. rewrite <- (sapp_nil_r (pair_text p)) at 1.
    rewrite finditer_match; [done|by apply pair_at_text|apply (pair_text_ends p Hp)].
  - rewrite !fmap_cons in *. rewrite join_cons, sapp_char.
    rewrite finditer_match;
      [|by apply pair_at_text|apply (pair_text_ends p Hp)].
    f_equal. by rewrite finditer_pairs_space.
Qed.

Lemma parse_pair_text p : wf_pair p → parse_pair (pair_text p) = Ok (pair_value p).
Proof.
  intros [H1 H2]. unfold parse_pair, pair_text, split.
  rewrite sapp_char, split_go_sep by by apply render_no_comma.
  rewrite split_go_plain by by apply render_no_comma.
  cbn [unpack2 mbind result_bind].
  rewrite !sapp_nil_l, !parse_float_render by done. done.
Qed.

Lemma mapM_parse_pairs pts :
  Forall wf_pair pts → mapM parse_pair (pair_text <$> pts) = Ok (pair_value <$> pts).
Proof.
  induction 1 as [|p rest Hp Hrest IH]; [done|].
  rewrite !fmap_cons. cbn [mapM]. rewrite parse_pair_text by done.
  cbn [mbind result_bind]. rewrite IH. done.
Qed.

End PointFacts.

Import PointFacts.

Module PointExtras.

(** Points written as [x,y] and separated by blanks are read back. *)
Theorem parse_points_round_trip pts :
  Forall wf_pair pts →
  _parse_points (join " " (pair_text <$> pts)) = Ok (pair_value <$> pts).
Proof.
  intros Hpts. destruct pts as [|p rest]; [reflexivity|].
  unfold _parse_points. rewrite strip_fixed.
  - rewrite findall_pairs, mapM_parse_pairs by done.
    cbn [mbind result_bind]. by rewrite bool_decide_eq_false_2.
  - apply join_ends; [done|]. apply Forall_fmap.
    eapply Forall_impl; [done|]. intros q Hq. by apply pair_text_ends.
  - apply join_ends; [done|]. apply Forall_fmap.
    eapply Forall_impl; [done|]. intros q Hq. by apply pair_text_ends.
Qed.

Lemma parse_points_round_trip_witness :
  _parse_points "0,0 -10.5,0 10,20.25"
  = Ok [ (Finite 0, Finite 0); (Finite (-10.5), Finite 0); (Finite 10, Finite 20.25) ].
Proof.
  apply (parse_points_round_trip
           [ (mkNumeral false "0" None, mkNumeral false "0" None);
             (mkNumeral true "10" (Some "5"), mkNumeral false "0" None);
             (mkNumeral false "10" None, mkNumeral false "20" (Some "25")) ]).
  repeat constructor; (reflexivity || discriminate).
Defined.

End PointExtras.

Import Py Re Models ET Parser Numeral Properties Examples StringFacts NumeralFacts FloatFacts ParseFloatFacts StyleClaims Totality Extractors ExtractorFacts StripFacts Chars FindFacts SplitFacts PointText PointFacts.

Module PointCount.

Lemma length_mapM_result {A B} (f : A → result B) l k :
  mapM f l = Ok k → length k = length l.
Proof.
  revert k. induction l as [|x l IH]; intros k; [by intros [= <-]|].
  cbn [mapM]. intros H. apply bind_Ok in H as (y & _ & H).
  apply bind_Ok in H as (k' & Hk & H). injection H as <-. simpl. f_equal. auto.
Qed.

Lemma points_of_numbers_length numbers m k acc :
  ∃ r, points_of_numbers numbers ((λ j, 2 * j) <$> seq k m) acc = Ok r
       ∧ length r = length acc + min m (length numbers / 2 - k).
Proof.
  revert k acc. induction m as [|m IH]; intros k acc.
  { exists acc. split; [done|]. lia. }
  cbn [seq fmap list_fmap points_of_numbers]. unfold index.
  destruct (numbers !! (2 * k)) as [a|] eqn:Ea; cbn [mbind result_bind].
  - apply lookup_lt_Some in Ea.
    destruct (parse_float_returns (Some a) fzero) as [x ->]. cbn [mbind result_bind].
    destruct (numbers !! (2 * k + 1)) as [b|] eqn:Eb; cbn [mbind result_bind].
    + apply lookup_lt_Some in Eb.
      destruct (parse_float_returns (Some b) fzero) as [y ->]. cbn [mbind result_bind].
      destruct (IH (S k) (acc ++ [(x, y)])) as (r & Hr & Hlen).
      exists r. split; [done|]. rewrite Hlen, length_app.
      change (length [(x, y)]) with 1.
      assert (S k ≤ length numbers / 2) by (apply Nat.div_le_lower_bound; lia).
      lia.
    + apply lookup_ge_None in Eb. exists acc. split; [done|].
      assert (length numbers / 2 < S k) by (apply Nat.Div0.div_lt_upper_bound; lia).
      lia.
  - apply lookup_ge_None in Ea. exists acc. split; [done|].
    assert (length numbers / 2 < S k) by (apply Nat.Div0.div_lt_upper_bound; lia).
    lia.
Qed.

(** How many points come out: the [x,y] pairs found, if there is one;
    otherwise the numbers found, taken two by two, an odd last one
    dropped. *)
Theorem parse_points_count points_str :
  ∃ pts,
    _parse_points points_str = Ok pts ∧
    length pts
    = match findall pair_at (strip points_str) with
      | [] => length (findall number_at points_str) / 2
      | pairs => length pairs
      end.
Proof.
  unfold _parse_points.
  destruct (mapM parse_pair (findall pair_at (strip points_str))) as [k|e] eqn:Hk.
  2:{ destruct (mapM_returns parse_pair (findall pair_at (strip points_str)))
        as [k' Hk']; [|congruence].
      apply findall_Forall, parse_pair_returns. }
  cbn [mbind result_bind]. pose proof (length_mapM_result _ _ _ Hk) as Hlen.
  destruct (findall pair_at (strip points_str)) as [|p pairs] eqn:Hpairs.
  - destruct k; [|done]. rewrite bool_decide_eq_true_2 by done.
    unfold range_step2.
    destruct (points_of_numbers_length (findall number_at points_str)
                (Nat.div2 (length (findall number_at points_str) + 1)) 0 [])
      as (r & Hr & Hrlen).
    exists r. split; [done|]. rewrite Hrlen. change (length (@nil point)) with 0.
    rewrite Nat.div2_div, Nat.sub_0_r. apply Nat.min_r.
    apply Nat.Div0.div_le_mono. lia.
  - destruct k as [|q k]; [done|]. rewrite bool_decide_eq_false_2 by done.
    by exists (q :: k).
Qed.

End PointCount.

(* ===================================================================== *)
(** * Path tokens *)
(* ===================================================================== *)

Import Py Re Models ET Parser Numeral Properties Examples StringFacts NumeralFacts FloatFacts ParseFloatFacts PathFacts StyleClaims Totality Extractors ExtractorFacts StripFacts Chars FindFacts SplitFacts PointText PointFacts ColorExtras.

Module TokenFacts.

(** What [\d*\.?\d+] matches: a numeral without sign, or a point and digits. *)
Lemma bare_number_at_inv s v :
  bare_number_at s = Some v →
  (∃ ip fr, wf (mkNumeral false ip fr) ∧ v = unsigned_text (mkNumeral false ip fr))
  ∨ (∃ fp, digit_string fp ∧ v = String "." fp).
Proof.
  unfold bare_number_at. destruct (span isdigit s) as [ip r] eqn:Hs.
  apply span_spec in Hs as (-> & Hip & Hr).
  assert (ip ≠ EmptyString → Some ip = Some v →
    ∃ ip0 fr, wf (mkNumeral false ip0 fr) ∧ v = unsigned_text (mkNumeral false ip0 fr))
    as Hplain.
  { intros Hne [= <-]. exists ip, None. split; [by repeat split|].
    unfold unsigned_text. simpl. by rewrite sapp_nil_r. }
  destruct r as [|x r].
  { destruct ip; [done|]. intros H. left. by apply Hplain. }
  destruct (Ascii.eqb_spec x ".") as [->|Hx].
  - destruct (span isdigit r) as [fp r'] eqn:Hf.
    apply span_spec in Hf as (-> & Hfp & _).
    destruct fp as [|c fp].
    + destruct ip; [done|]. intros H. left. by apply Hplain.
    + destruct ip as [|c0 ip]; intros [= <-].
      * right. exists (String c fp). by repeat split.
      * left. exists (String c0 ip), (Some (String c fp)). by repeat split.
  - intros H. left. destruct ip as [|c0 ip].
    + exfalso. revert H. clear -Hx. by destruct x as [[] [] [] [] [] [] [] []].
    + apply Hplain; [done|]. revert H. clear -Hx.
      by destruct x as [[] [] [] [] [] [] [] []].
Qed.

Lemma bare_number_at_text n rest :
  wf n → after_number rest →
  bare_number_at (unsigned_text n +:+ rest) = Some (unsigned_text n).
Proof.
  intros [Hip Hfp] Hrest. unfold bare_number_at, unsigned_text.
  destruct (digit_string_cons _ Hip) as (c & r & Eip & Hc & Hr).
  rewrite sapp_assoc.
  rewrite (span_app isdigit (int_digits n)); [|apply Hip|].
  - destruct (frac_digits n) as [fp|].
    + destruct (digit_string_cons _ Hfp) as (c' & r' & -> & Hc' & Hr').
      rewrite sapp_cons.
      rewrite (span_app isdigit (String c' r'));
        [by destruct (int_digits n)| |by apply after_number_digit].
      simpl. by rewrite Hc', Hr'.
    + rewrite sapp_nil_l, sapp_nil_r, Eip. destruct rest as [|x rest]; [done|].
      simpl in Hrest. apply orb_false_elim in Hrest as [Hx Hdot].
      destruct x as [[] [] [] [] [] [] [] []]; try done.
  - destruct (frac_digits n); [done|]. rewrite sapp_nil_l. by apply after_number_digit.
Qed.

Lemma path_token_at_render n rest :
  wf n → after_number rest →
  path_token_at (render n +:+ rest) = Some (render n).
Proof.
  intros Hn Hrest. pose proof (bare_number_at_text n rest Hn Hrest) as H.
  unfold render. destruct (negative n).
  - rewrite sapp_cons. cbn. by rewrite H.
  - destruct Hn as [Hip _].
    destruct (digit_string_cons _ Hip) as (c & r & Eip & Hc & _).
    assert (∃ t, unsigned_text n +:+ rest = String c t) as [t E].
    { unfold unsigned_text. rewrite Eip, !sapp_cons. eauto. }
    rewrite E in *. clear E. unfold path_token_at.
    destruct c as [[] [] [] [] [] [] [] []]; vm_compute in Hc; try done.
Qed.

(** [float] of a point and digits, with or without a minus sign. *)
Lemma float_of_str_fraction (neg : bool) fp :
  digit_string fp →
  float_of_str ((if neg then "-" else EmptyString) +:+ String "." fp)
  = Ok (Finite (if neg then - decimal EmptyString fp else decimal EmptyString fp)%Q).
Proof.
  intros Hfp. unfold float_of_str.
  assert (all nonspace fp = true) as Hns by by apply digits_nonspace.
  rewrite strip_c_id by (destruct neg; simpl; by rewrite Hns).
  assert (sign true ((if neg then "-" else EmptyString) +:+ String "." fp)
          = (neg, String "." fp)) as -> by by destruct neg.
  cbn [lower]. change (lower_char ".") with "."%char.
  replace (String.eqb (String "." (lower fp)) "inf") with false by done.
  replace (String.eqb (String "." (lower fp)) "infinity") with false by done.
  replace (String.eqb (String "." (lower fp)) "nan") with false by done.
  cbn [orb]. unfold floatnumber, number.
  change (digitpart (String "." fp)) with (EmptyString, String "." fp).
  cbn iota. rewrite digitpart_all by done.
  by destruct (digit_string_cons _ Hfp) as (c & r & -> & _ & _).
Qed.

Lemma parse_float_fraction (neg : bool) fp default_ :
  digit_string fp →
  _parse_float (Some ((if neg then "-" else EmptyString) +:+ String "." fp)) default_
  = float_of_str ((if neg then "-" else EmptyString) +:+ String "." fp).
Proof.
  intros Hfp. unfold _parse_float.
  assert (all nonspace fp = true) as Hns by by apply digits_nonspace.
  rewrite strip_id by (destruct neg; simpl; by rewrite Hns).
  assert (truthy ((if neg then "-" else EmptyString) +:+ String "." fp) = true) as ->
    by by destruct neg.
  assert (LENGTH_RE_fullmatch ((if neg then "-" else EmptyString) +:+ String "." fp)
          = None) as -> by by destruct neg.
  cbn [negb]. by rewrite float_of_str_fraction by done.
Qed.

Lemma digit_not_alpha c : isdigit c = true → isalpha c = false.
Proof. by_chars c. Qed.

Lemma is_letter_render n : wf n → is_letter (render n) = false.
Proof.
  intros [Hip _]. destruct (digit_string_cons _ Hip) as (c & r & E & Hc & _).
  assert (∃ t, unsigned_text n = String c t) as [t Et].
  { unfold unsigned_text. rewrite E, sapp_cons. eauto. }
  unfold render. rewrite Et. destruct (negative n); simpl.
  - done.
  - destruct t; [by apply digit_not_alpha|done].
Qed.

End TokenFacts.

Import TokenFacts.

Module TokenExtras.

(** Every token of a path is one of the ten command letters, or a text
    that is no letter and that [float] accepts; [_parse_float] then gives
    the number that [float] gives, whatever the default. *)
Theorem path_tokens_kinds path_data :
  Forall (λ token,
            (∃ c, token = String c EmptyString ∧ is_path_command c = true)
            ∨ (is_letter token = false
               ∧ ∃ number,
                   float_of_str token = Ok number
                   ∧ ∀ default_, _parse_float (Some token) default_ = Ok number))
    (_path_tokens path_data).
Proof.
  apply findall_Forall. intros s m. unfold path_token_at.
  destruct s as [|c r]; [done|].
  assert (∀ (neg : bool) v,
            bare_number_at (if neg then r else String c r) = Some v →
            let token := (if neg then "-" else EmptyString) +:+ v in
            is_letter token = false
            ∧ ∃ number,
                float_of_str token = Ok number
                ∧ ∀ default_, _parse_float (Some token) default_ = Ok number)
    as Hnum.
  { intros neg v [(ip & fr & Hwf & ->)|(fp & Hfp & ->)]%bare_number_at_inv token.
    - assert (token = render (mkNumeral neg ip fr)) as -> by by destruct neg.
      assert (wf (mkNumeral neg ip fr)) as Hwf' by done.
      split; [by apply is_letter_render|].
      eexists. split; [by apply float_of_str_render|].
      intros default_. by apply parse_float_render.
    - split; [by destruct neg, fp|].
      eexists. split; [by apply float_of_str_fraction|].
      intros default_. unfold token. rewrite parse_float_fraction by done.
      by apply float_of_str_fraction. }
  destruct (is_path_command c) eqn:Hc.
  { intros [= <-]. left. eauto. }
  destruct (Ascii.eqb_spec c "-") as [->|Hminus].
  - destruct (bare_number_at r) as [v|] eqn:Hv; [|done].
    intros [= <-]. right. apply (Hnum true v Hv).
  - intros Hv. right. apply (Hnum false m Hv).
Qed.

End TokenExtras.

(* ===================================================================== *)
(** * Paths: polylines *)
(* ===================================================================== *)

Import Py Re Models ET Parser Numeral Properties Examples StringFacts NumeralFacts FloatFacts ParseFloatFacts PathFacts StyleClaims Totality Extractors ExtractorFacts StripFacts Chars FindFacts SplitFacts PointText PointFacts ColorExtras TokenFacts.

Import PathText.

Module PolylineFacts.

Lemma render_nonempty_text n : wf n → render n ≠ EmptyString.
Proof. intros Hn E. pose proof (render_nonempty n Hn) as H. by rewrite E in H. Qed.

Lemma path_token_at_skip c r :
  is_path_command c = false → isdigit c = false →
  Ascii.eqb c "-" = false → Ascii.eqb c "." = false →
  path_token_at (String c r) = None.
Proof.
  intros H1 H2 H3 H4. unfold path_token_at, bare_number_at.
  rewrite H1, H3. simpl. rewrite H2.
  destruct c as [[] [] [] [] [] [] [] []]; try done.
Qed.

Lemma tokens_pair p rest :
  wf_pair p → after_number rest →
  finditer_from path_token_at 0 (pair_text p +:+ rest)
  = pair_tokens p ++ finditer_from path_token_at 0 rest.
Proof.
  intros [H1 H2] Hrest. unfold pair_text, pair_tokens.
  rewrite !sapp_assoc, sapp_char.
  rewrite finditer_match;
    [|by apply path_token_at_render|by apply render_nonempty_text].
  cbn [app]. f_equal.
  change (finditer_from path_token_at 0 (String "," ?x))
    with (finditer_from path_token_at 0 x).
  rewrite finditer_match;
    [done|by apply path_token_at_render|by apply render_nonempty_text].
Qed.

Lemma tokens_pairs pts :
  Forall wf_pair pts →
  finditer_from path_token_at 0 (join " " (pair_text <$> pts))
  = concat (pair_tokens <$> pts).
Proof.
  induction 1 as [|p rest Hp Hrest IH]; [done|].
  destruct rest as [|p' rest].
  - cbn [fmap list_fmap join concat]. rewrite <- (sapp_nil_r (pair_text p)).
    rewrite tokens_pair by done. by rewrite app_nil_r.
  - rewrite !fmap_cons in *. rewrite join_cons, sapp_char.
    rewrite tokens_pair by done. cbn [concat]. f_equal. exact IH.
Qed.

Lemma update_last_snoc {A} (f : A → A) l x :
  update_last f (l ++ [x]) = l ++ [f x].
Proof.
  unfold update_last. rewrite length_app. simpl.
  replace (pred (length l + 1)) with (length l + 0) by lia.
  by rewrite alter_app_r.
Qed.

Lemma draw_lineto pt st segs seg :
  segments st = segs ++ [seg] →
  draw "L" pt st
  = {| command := Some "L"; cursor := pt; start_point := start_point st;
       segments := segs ++ [ {| points := points seg ++ [pt]; closed := closed seg |} ] |}.
Proof.
  intros E. unfold draw. change (one_of "L" ["M"; "m"]) with false. cbv iota.
  rewrite E.
  destruct (segs ++ [seg]) as [|s0 l0] eqn:E2; [by destruct segs|].
  by rewrite <- E2, update_last_snoc.
Qed.

Lemma loop_lineto pts :
  Forall wf_pair pts →
  ∀ st segs seg,
    command st = Some "L" → segments st = segs ++ [seg] →
    _parse_path_loop (concat (pair_tokens <$> pts)) st
    = Ok (segs ++ [ {| points := points seg ++ (pair_value <$> pts);
                       closed := closed seg |} ]).
Proof.
  induction 1 as [|p rest [H1 H2] Hrest IH]; intros st segs seg Hc Hs.
  - simpl. rewrite Hs, app_nil_r. by destruct seg.
  - rewrite fmap_cons. cbn [concat pair_tokens app]. rewrite loop_unfold.
    unfold path_step. rewrite is_letter_render, Hc by done.
    change (one_of "L" ["M"; "L"]) with true. cbv iota. cbn [head].
    rewrite !parse_float_render by done. cbn [mbind result_bind List.tl].
    erewrite IH; [|by erewrite draw_lineto|by erewrite draw_lineto].
    cbn [points closed]. by rewrite <- app_assoc.
Qed.

End PolylineFacts.

Import PolylineFacts.

Module PathExtras.

(** [M] followed by coordinate pairs, the later ones implicit line-tos,
    gives one open segment with exactly these points. *)
Theorem parse_path_polyline pts :
  pts ≠ [] → Forall wf_pair pts →
  _parse_path ("M" +:+ join " " (pair_text <$> pts))
  = Ok [ {| points := pair_value <$> pts; closed := false |} ].
Proof.
  intros Hne Hpts. destruct pts as [|p rest]; [done|].
  unfold _parse_path, _path_tokens, findall.
  change (finditer_from path_token_at 0 ("M" +:+ ?x))
    with ("M" :: finditer_from path_token_at 0 x).
  rewrite tokens_pairs by done.
  apply Forall_cons in Hpts as [[H1 H2] Hrest].
  rewrite fmap_cons. cbn [concat pair_tokens app].
  rewrite loop_unfold.
  change (path_step "M" _ interp_init) with (Ok (set_command "M" interp_init, false)).
  cbv iota. rewrite loop_unfold. unfold path_step.
  rewrite is_letter_render by done. cbn [command set_command head].
  change (one_of "M" ["M"; "L"]) with true. cbv iota.
  rewrite !parse_float_render by done. cbn [mbind result_bind List.tl].
  rewrite (loop_lineto rest Hrest _ []
             {| points := [pair_value p]; closed := false |}); done.
Qed.

Lemma parse_path_polyline_witness :
  _parse_path "M0,0 10,-2.5 10,10"
  = Ok [ {| points := [ (Finite 0, Finite 0); (Finite 10, Finite (-2.5));
                        (Finite 10, Finite 10) ];
            closed := false |} ].
Proof.
  apply (parse_path_polyline
           [ (mkNumeral false "0" None, mkNumeral false "0" None);
             (mkNumeral false "10" None, mkNumeral true "2" (Some "5"));
             (mkNumeral false "10" None, mkNumeral false "10" None) ]);
    [done|].
  repeat constructor; (reflexivity || discriminate).
Defined.

End PathExtras.

(* ===================================================================== *)
(** * Paths: closing and failure *)
(* ===================================================================== *)

Import Py Re Models ET Parser Numeral Properties Examples StringFacts NumeralFacts FloatFacts ParseFloatFacts PathFacts StyleClaims Totality Extractors ExtractorFacts StripFacts Chars FindFacts SplitFacts PointText PointFacts ColorExtras TokenFacts PathClaims.

Import PathShape CloseFacts.

Module CloseExtras.

(** No segment comes out closed unless some [Z] or [z] of the path is
    directly followed by a number. *)
Theorem parse_path_never_closes path_data segs :
  z_then_number (_path_tokens path_data) = false →
  _parse_path path_data = Ok segs →
  Forall (λ seg, closed seg = false) segs.
Proof.
  intros Hz. apply loop_never_closes; [done| |constructor]. done.
Qed.

Lemma parse_path_never_closes_witness :
  Forall (λ seg, closed seg = false)
    [ {| points := [(Finite 0, Finite 0); (Finite 4, Finite 0); (Finite 4, Finite 3)];
         closed := false |};
      {| points := [(Finite 9, Finite 9)]; closed := false |} ].
Proof.
  apply (parse_path_never_closes "M0,0 H4 V3 Z M9,9 z"); reflexivity.
Defined.

(** The path interpreter fails in one way only, and only on a path whose
    first token is a number or in which a number directly follows a [Z]
    or [z]. *)
Theorem parse_path_failure path_data e :
  _parse_path path_data = Raise e →
  e = ValueError "Path data missing command" ∧
  (starts_with_number (_path_tokens path_data) = true
   ∨ z_then_number (_path_tokens path_data) = true).
Proof.
  intros H. split; [by eapply parse_path_loop_raises|].
  destruct (starts_with_number (_path_tokens path_data)) eqn:Hs; [by left|].
  destruct (z_then_number (_path_tokens path_data)) eqn:Hz; [by right|].
  destruct (loop_returns (_path_tokens path_data) interp_init Hz) as [segs Hsegs];
    [done|]. unfold _parse_path in H. congruence.
Qed.

Lemma parse_path_failure_witness :
  ValueError "Path data missing command" = ValueError "Path data missing command" ∧
  (starts_with_number (_path_tokens "M0,0 L5,5 Z 1,1") = true
   ∨ z_then_number (_path_tokens "M0,0 L5,5 Z 1,1") = true).
Proof.
  apply (parse_path_failure "M0,0 L5,5 Z 1,1"). reflexivity.
Defined.

End CloseExtras.

(* ===================================================================== *)
(** * Documents: discriminators and tags *)
(* ===================================================================== *)

Import Py Re Models ET Parser Numeral Properties Examples StringFacts NumeralFacts FloatFacts ParseFloatFacts PathFacts StyleClaims Totality Extractors ExtractorFacts DocumentClaims StripFacts Chars FindFacts SplitFacts PointText PointFacts ColorExtras TokenFacts.

Import ShapeProps.

Module DocumentFacts.

Lemma parsed_by_well_tagged element shape : parsed_by element shape → well_tagged shape.
Proof.
  intros (parser & Hp & H).
  remember (local_tag element) as tag eqn:Htag. clear Htag. parser_cases Hp;
    [unfold _parse_rect in H | unfold _parse_circle in H
    |unfold _parse_ellipse in H | unfold _parse_line in H
    |unfold _parse_polyline in H | unfold _parse_polyline in H
    |unfold _parse_path_element in H | unfold _parse_text in H];
    repeat (apply bind_Ok in H as (? & _ & H)); by injection H as <-.
Qed.

Lemma last_split_suffix sep before name :
  all (differs sep) name = true →
  List.last (split sep (before +:+ String sep name)) EmptyString = name.
Proof.
  intros H. rewrite split_app, (split_plain sep name) by done.
  apply last_last.
Qed.

End DocumentFacts.

Import DocumentFacts.

Module DocumentExtras.

(** Every shape of a parsed document carries the discriminator of its own
    variant, and a point list is a polygon exactly when it is closed. *)
Theorem parse_svg_well_tagged root doc :
  parse_svg root = Ok doc → Forall well_tagged (shapes doc).
Proof.
  intros H. unfold parse_svg in H.
  apply bind_Ok in H as (w & _ & H). apply bind_Ok in H as (h & _ & H).
  apply bind_Ok in H as (shapes & Hs & H). injection H as <-.
  apply parse_elements_order in Hs as (new & -> & Hnew). simpl.
  induction Hnew as [|el sh els shs Hp _ IH]; constructor; [|done].
  by eapply parsed_by_well_tagged.
Qed.

Lemma parse_svg_well_tagged_witness :
  ∃ doc, parse_svg order_example = Ok doc ∧ Forall well_tagged (shapes doc).
Proof.
  destruct (parse_svg order_example) as [doc|e] eqn:E; [|discriminate E].
  exists doc. split; [reflexivity|]. exact (parse_svg_well_tagged order_example doc E).
Defined.

(** The tag that counts is what follows the last [}]: a namespace in
    braces before the name is dropped, and a tag without braces is kept. *)
Theorem local_tag_namespace element :
  (∀ before name,
     tag element = before +:+ String "}" name → all (differs "}") name = true →
     local_tag element = name)
  ∧ (all (differs "}") (tag element) = true → local_tag element = tag element).
Proof.
  unfold local_tag. split.
  - intros before name -> Hname. by apply last_split_suffix.
  - intros H. by rewrite split_plain.
Qed.

Lemma local_tag_namespace_witness :
  local_tag (leaf "{http://www.w3.org/2000/svg}rect" ∅) = "rect"
  ∧ local_tag (leaf "rect" ∅) = "rect".
Proof.
  split.
  - apply (proj1 (local_tag_namespace _) "{http://www.w3.org/2000/svg" "rect");
      reflexivity.
  - apply (proj2 (local_tag_namespace (leaf "rect" ∅))). reflexivity.
Defined.

End DocumentExtras.

(* ===================================================================== *)
(** * Documents: success, and text content *)
(* ===================================================================== *)

Import Py Re Models ET Parser Numeral Properties Examples StringFacts NumeralFacts FloatFacts ParseFloatFacts PathFacts StyleClaims Totality Extractors ExtractorFacts DocumentClaims StripFacts Chars FindFacts SplitFacts PointText PointFacts ColorExtras TokenFacts ShapeProps DocumentFacts.

Module SuccessFacts.

Lemma extract_style_failure element base_style :
  (∃ exc, opacity_failure element exc ∨ colour_failure element exc) →
  ∃ e, _extract_style element base_style = Raise e.
Proof.
  intros [exc Hcause].
  destruct (_extract_style element base_style) as [st|e] eqn:H; [|by exists e].
  unfold _extract_style in H.
  apply bind_Ok in H as (inline & Hin & H).
  apply bind_Ok in H as (fc & Hfc & H). apply bind_Ok in H as (sc & Hsc & H).
  apply bind_Ok in H as (sw & _ & H). apply bind_Ok in H as (op & Hop & _).
  destruct Hcause as [(inline' & o & Hin' & Ho & Hf)|(inline' & key & Hin' & Hkey & Hc)];
    assert (inline' = inline) as -> by congruence.
  - rewrite Ho in Hop. congruence.
  - apply elem_of_cons in Hkey as [->|Hkey]; [congruence|].
    apply elem_of_cons in Hkey as [->|Hkey]; [congruence|].
    by apply elem_of_nil in Hkey.
Qed.

Lemma fails_parser_raises element parser :
  _SHAPE_PARSERS !! local_tag element = Some parser →
  fails element → ∃ e, parser element = Raise e.
Proof.
  intros Hp [exc Hcause].
  assert ((∃ exc, opacity_failure element exc ∨ colour_failure element exc)
          ∨ path_failure element exc) as [Hstyle|(Htag & Hpath & _)]
    by (destruct Hcause as [?|[?|?]]; eauto).
  - remember (local_tag element) as tag eqn:Htag. clear Htag. parser_cases Hp;
      [unfold _parse_rect | unfold _parse_circle | unfold _parse_ellipse
      |unfold _parse_line | unfold _parse_polyline | unfold _parse_polyline
      |unfold _parse_path_element
      |unfold _parse_text, _extract_text_style;
       destruct (merge_style_returns element) as [inline ->];
       cbn [mbind result_bind]];
      match goal with
      | |- context [_extract_style element ?b] =>
          destruct (extract_style_failure element b Hstyle) as [e ->]
      end; by exists e.
  - assert (parser = _parse_path_element) as ->.
    { remember (local_tag element) as tag eqn:E. clear E.
      parser_cases Hp; done. }
    unfold _parse_path_element.
    destruct (_extract_style element None) as [st|e]; cbn [mbind result_bind];
      [|by exists e].
    rewrite Hpath. by exists exc.
Qed.

Lemma parse_elements_all_return elements acc shapes :
  parse_elements elements acc = Ok shapes →
  ∀ element parser,
    element ∈ elements → _SHAPE_PARSERS !! local_tag element = Some parser →
    returns (parser element).
Proof.
  revert acc. induction elements as [|el rest IH]; intros acc H element parser Hin Hp.
  { by apply elem_of_nil in Hin. }
  simpl in H. apply elem_of_cons in Hin as [->|Hin].
  - rewrite Hp in H. destruct (parser el) as [sh|e]; [by eexists|done].
  - destruct (_SHAPE_PARSERS !! local_tag el) as [p|].
    + destruct (p el); [by eapply IH|done].
    + by eapply IH.
Qed.

End SuccessFacts.

Import SuccessFacts.

Module SuccessExtras.

(** A conversion returns a document exactly when the file can be read and
    no element of the tree that [parse_svg] recognises has an opacity that
    [float] refuses, a fill or stroke colour that [_parse_color] refuses
    or, for a path, data on which the path interpreter fails. *)
Theorem parse_svg_returns_iff parse svg_file :
  returns (parse_svg_file parse svg_file) ↔
  ∃ root,
    parse svg_file = Ok root ∧
    ∀ element, element ∈ iter root → recognised element → ¬ fails element.
Proof.
  unfold parse_svg_file. split.
  - intros [doc H]. apply bind_Ok in H as (root & Hroot & H). exists root.
    split; [done|]. intros element Hin [parser Hp] Hfails. unfold parse_svg in H.
    apply bind_Ok in H as (w & _ & H). apply bind_Ok in H as (h & _ & H).
    apply bind_Ok in H as (shapes & Hs & _).
    destruct (parse_elements_all_return _ _ _ Hs element parser Hin Hp) as [sh Hsh].
    destruct (fails_parser_raises element parser Hp Hfails) as [e He]. congruence.
  - intros (root & -> & Hok). cbn [mbind result_bind]. unfold parse_svg.
    apply returns_bind; [apply canvas_length_returns|intros w].
    apply returns_bind; [apply canvas_length_returns|intros h].
    destruct (parse_elements (iter root) []) as [shapes|e] eqn:Hs; [by eexists|].
    apply parse_elements_raises in Hs as (element & exc & Hin & Hrec & _ & Hcause).
    destruct (Hok element Hin Hrec). by exists exc.
Qed.

End SuccessExtras.

Module TextExtras.

Lemma stripped_piece t :
  truthy (strip t) = true →
  first_fails isspace (strip t) ∧ first_fails isspace (String.rev (strip t))
  ∧ strip t ≠ EmptyString.
Proof.
  intros H. destruct (strip_ends t) as [H1 H2]. repeat split; [done..|].
  intros E. by rewrite E in H.
Qed.

(** The text of a text shape has no blank at either end, and it is empty
    when the element holds nothing but blank text. *)
Theorem parse_text_content element shape :
  _parse_text element = Ok shape →
  ∃ text_style content x y,
    shape = Text TEXT text_style content x y ∧
    strip content = content ∧
    (Forall (λ t, all isspace t = true) (itertext element) → content = EmptyString).
Proof.
  intros H. unfold _parse_text in H.
  apply bind_Ok in H as (ts & _ & H). apply bind_Ok in H as (x & _ & H).
  apply bind_Ok in H as (y & _ & H). injection H as <-.
  eexists _, _, _, _. split; [reflexivity|]. split.
  - set (pieces := strip <$> filter (λ t, truthy (strip t) = true) (itertext element)).
    assert (Forall (λ t, first_fails isspace t ∧ first_fails isspace (String.rev t)
                         ∧ t ≠ EmptyString) pieces) as Hall.
    { apply Forall_fmap, Forall_forall. intros t [Ht _]%list_elem_of_filter.
      by apply stripped_piece. }
    destruct (decide (pieces = [])) as [->|Hne]; [reflexivity|].
    destruct (join_ends pieces Hne Hall) as (H1 & H2 & _).
    by apply strip_fixed.
  - intros Hblank.
    assert (filter (λ t, truthy (strip t) = true) (itertext element) = []) as ->; [|done].
    induction Hblank as [|t ts' Ht _ IH]; [done|].
    rewrite filter_cons_False; [done|]. by rewrite strip_blank.
Qed.

Lemma parse_text_content_witness :
  ∃ text_style content x y,
    Text TEXT
      {| text_base := Style_default; font_family := None; font_size := None |}
      "Hello SVG" fzero fzero
    = Text TEXT text_style content x y ∧
    strip content = content ∧
    (Forall (λ t, all isspace t = true)
       (itertext {| tag := "text"; attrib := ∅; text := Some "  Hello ";
                    tail := None;
                    children := [ {| tag := "tspan"; attrib := ∅;
                                     text := Some "SVG"; tail := Some "  ";
                                     children := [] |} ] |}) →
     content = EmptyString).
Proof.
  apply (parse_text_content
           {| tag := "text"; attrib := ∅; text := Some "  Hello "; tail := None;
              children := [ {| tag := "tspan"; attrib := ∅; text := Some "SVG";
                               tail := Some "  "; children := [] |} ] |}).
  reflexivity.
Defined.

End TextExtras.

(* ===================================================================== *)
(** * Shapes and styles *)
(* ===================================================================== *)

Import Py Re Models ET Parser Numeral Properties Examples StringFacts NumeralFacts FloatFacts ParseFloatFacts PathFacts StyleClaims Totality Extractors ExtractorFacts DocumentClaims StripFacts Chars FindFacts SplitFacts PointText PointFacts ColorExtras TokenFacts ShapeProps DocumentFacts.

Module ShapeExtras.

Lemma attr_float_render element key n :
  wf n → attrib element !! key = Some (render n) →
  attr_float element key = Ok (Finite (value n)).
Proof.
  intros Hn Hk. unfold attr_float, get. rewrite Hk. by apply parse_float_render.
Qed.

Lemma attr_float_absent element key :
  attrib element !! key = None → attr_float element key = Ok fzero.
Proof. intros Hk. unfold attr_float, get. by rewrite Hk. Qed.

(** A rectangle whose geometry attributes are plain numerals, without
    corner radii, is extracted with these numbers, radii 0 and the style
    the element resolves to. *)
Theorem parse_rect_geometry element st nx ny nw nh :
  wf nx → wf ny → wf nw → wf nh →
  _extract_style element None = Ok st →
  attrib element !! "x" = Some (render nx) →
  attrib element !! "y" = Some (render ny) →
  attrib element !! "width" = Some (render nw) →
  attrib element !! "height" = Some (render nh) →
  attrib element !! "rx" = None →
  attrib element !! "ry" = None →
  _parse_rect element =
    Ok (Rect RECT st (Finite (value nx)) (Finite (value ny))
          (Finite (value nw)) (Finite (value nh)) fzero fzero).
Proof.
  intros Hx Hy Hw Hh Hst Ax Ay Aw Ah Arx Ary. unfold _parse_rect.
  rewrite Hst. cbn [mbind result_bind].
  rewrite (attr_float_render _ "x" nx) by done. cbn [mbind result_bind].
  rewrite (attr_float_render _ "y" ny) by done. cbn [mbind result_bind].
  rewrite (attr_float_render _ "width" nw) by done. cbn [mbind result_bind].
  rewrite (attr_float_render _ "height" nh) by done. cbn [mbind result_bind].
  rewrite (attr_float_absent _ "rx") by done. cbn [mbind result_bind].
  by rewrite (attr_float_absent _ "ry") by done.
Qed.

Lemma parse_rect_geometry_witness :
  _parse_rect
    (leaf "rect" {[ "x" := "10"; "y" := "-2.5"; "width" := "100";
                    "height" := "50"; "fill" := "red" ]})
  = Ok (Rect RECT
          {| fill_color := Some "#ff0000"; stroke_color := None;
             stroke_width := Finite 1; opacity := Finite 1 |}
          (Finite 10) (Finite (-2.5)) (Finite 100) (Finite 50) fzero fzero).
Proof.
  apply (parse_rect_geometry _ _ (mkNumeral false "10" None)
           (mkNumeral true "2" (Some "5")) (mkNumeral false "100" None)
           (mkNumeral false "50" None));
    solve [reflexivity | repeat split; discriminate].
Defined.

(** An element without [style], [fill], [stroke], [stroke-width] and
    [opacity] resolves to no colours and to the stroke width and opacity of
    the base style, or 1 without a base style. *)
Theorem extract_style_unstyled element base_style :
  attrib element !! "style" = None →
  attrib element !! "fill" = None →
  attrib element !! "stroke" = None →
  attrib element !! "stroke-width" = None →
  attrib element !! "opacity" = None →
  _extract_style element base_style =
    Ok {| fill_color := None; stroke_color := None;
          stroke_width := match base_style with
                          | Some b => stroke_width b | None => Finite 1 end;
          opacity := match base_style with
                     | Some b => opacity b | None => Finite 1 end |}.
Proof.
  intros Hs Hf Hk Hw Ho. unfold _extract_style, _merge_style, get.
  rewrite Hs. cbn [mbind result_bind]. by rewrite Hf, Hk, Hw, Ho.
Qed.

Lemma extract_style_unstyled_witness :
  _extract_style (leaf "circle" {[ "cx" := "5"; "r" := "2" ]})
    (Some {| fill_color := Some "#000000"; stroke_color := None;
             stroke_width := Finite 3; opacity := Finite 0.5 |})
  = Ok {| fill_color := None; stroke_color := None;
          stroke_width := Finite 3; opacity := Finite 0.5 |}.
Proof.
  apply (extract_style_unstyled (leaf "circle" {[ "cx" := "5"; "r" := "2" ]})
           (Some {| fill_color := Some "#000000"; stroke_color := None;
                    stroke_width := Finite 3; opacity := Finite 0.5 |}));
    reflexivity.
Defined.

(** The colours of a resolved style never come from the base style. *)
Theorem extract_style_colours_ignore_base element base1 base2 st1 st2 :
  _extract_style element base1 = Ok st1 →
  _extract_style element base2 = Ok st2 →
  fill_color st1 = fill_color st2 ∧ stroke_color st1 = stroke_color st2.
Proof.
  unfold _extract_style. intros H1 H2.
  apply bind_Ok in H1 as (inline & Hin & H1). rewrite Hin in H2.
  cbn [mbind result_bind] in H2.
  apply bind_Ok in H1 as (fc & Hfc & H1). rewrite Hfc in H2.
  apply bind_Ok in H1 as (sc & Hsc & H1). rewrite Hsc in H2.
  cbn [mbind result_bind] in H2.
  apply bind_Ok in H1 as (sw1 & _ & H1). apply bind_Ok in H1 as (op1 & _ & H1).
  apply bind_Ok in H2 as (sw2 & _ & H2). apply bind_Ok in H2 as (op2 & _ & H2).
  injection H1 as <-. injection H2 as <-. done.
Qed.

Lemma extract_style_colours_ignore_base_witness :
  fill_color
    {| fill_color := Some "#0000ff"; stroke_color := None;
       stroke_width := Finite 1; opacity := Finite 1 |}
  = fill_color
      {| fill_color := Some "#0000ff"; stroke_color := None;
         stroke_width := Finite 4; opacity := Finite 0.25 |}
  ∧ stroke_color
      {| fill_color := Some "#0000ff"; stroke_color := None;
         stroke_width := Finite 1; opacity := Finite 1 |}
    = stroke_color
        {| fill_color := Some "#0000ff"; stroke_color := None;
           stroke_width := Finite 4; opacity := Finite 0.25 |}.
Proof.
  apply (extract_style_colours_ignore_base
           (leaf "rect" {[ "fill" := "blue" ]}) None
           (Some {| fill_color := Some "#ff0000"; stroke_color := Some "#ffffff";
                    stroke_width := Finite 4; opacity := Finite 0.25 |}));
    reflexivity.
Defined.

(** A font size that is blank but not empty is read as 0, not as absent;
    an empty or missing one is absent. *)
Theorem text_font_size_blank element ts :
  _extract_text_style element = Ok ts →
  ∃ inline, _merge_style element = Ok inline ∧
    match get element "font-size" (inline !! "font-size") with
    | None => font_size ts = None
    | Some v =>
        (v = EmptyString → font_size ts = None) ∧
        (v ≠ EmptyString → all isspace v = true → font_size ts = Some fzero)
    end.
Proof.
  unfold _extract_text_style. intros H.
  apply bind_Ok in H as (inline & Hin & H). exists inline. split; [done|].
  apply bind_Ok in H as (base & _ & H).
  apply bind_Ok in H as (fs & Hfs & H). injection H as <-. simpl.
  destruct (get element "font-size" (inline !! "font-size")) as [v|];
    [|by injection Hfs as <-].
  split.
  - intros ->. by injection Hfs as <-.
  - intros Hne Hblank. destruct v as [|c v]; [done|].
    change (truthy (String c v)) with true in Hfs. cbv iota in Hfs.
    unfold _parse_float in Hfs. rewrite strip_blank in Hfs by done.
    by injection Hfs as <-.
Qed.

Lemma text_font_size_blank_witness :
  ∃ inline,
    _merge_style (leaf "text" {[ "font-size" := " " ]}) = Ok inline ∧
    match get (leaf "text" {[ "font-size" := " " ]}) "font-size"
            (inline !! "font-size") with
    | None =>
        font_size
          {| text_base := Style_default; font_family := None;
             font_size := Some fzero |} = None
    | Some v =>
        (v = EmptyString →
         font_size
           {| text_base := Style_default; font_family := None;
              font_size := Some fzero |} = None) ∧
        (v ≠ EmptyString → all isspace v = true →
         font_size
           {| text_base := Style_default; font_family := None;
              font_size := Some fzero |} = Some fzero)
    end.
Proof.
  apply (text_font_size_blank (leaf "text" {[ "font-size" := " " ]})).
  reflexivity.
Defined.

End ShapeExtras.
